(** * Microservices-connector: the affinity worker pool and the
      execution-context bridge of [microservices_connector/spawn.py]

    The development embeds [DistributedThreads] (the pool that routes tasks
    to per-worker queues, with key affinity), [AsyncThread.run] (the worker
    loop) and [AsyncToSync] (the adapter that lets synchronous code call an
    awaitable) as executable Rocq functions, and proves the properties the
    specification states about them.

    Python integers are [Z]; Python lists and deques are [list]s updated by
    index; a method that mutates [self] and may raise is a function from the
    state to the new state and an outcome, so that what was already written
    when an exception is raised stays written.

    The objects of the standard library that the code uses ([queue.Queue],
    [collections.deque], [concurrent.futures.Future], the [asyncio] event
    loop) are modelled by the behaviour the code relies on.  Threads are
    modelled one at a time: the calls of the pool on one side, the loop of
    one worker on the other, and for the bridge the calling thread, with
    the running event loops starting what was handed to them while the
    caller waits, each until a coroutine raises an exception that stops
    its loop.

    The exchange of [microservices_connector/Interservices.py] is embedded
    as well: the wrapper that [Microservice.reply] puts around a handler,
    [microResponse] and [oneResponse], and [Friend.send] with the
    dictionaries that [Friend] objects hold.  There Python values are the
    values JSON carries, beside tuples and objects; Flask and [requests]
    are the two ends of a function from the request to the response. *)

From Stdlib Require Import ZArith Lia.
From stdpp Require Import base tactics option numbers list strings gmap.

Local Open Scope Z_scope.

(** ** Outcomes and the state-and-exception monad *)

(** The Python exceptions the modelled code can raise. *)
Inductive exn : Type :=
  | ValueError_key_in_two_workers   (* "Key belong to more than one worker" *)
  | ZeroDivisionError               (* [x % 0] *)
  | IndexError                      (* list index out of range, pop from an empty deque *)
  | RuntimeError_running_loop       (* "You cannot use AsyncToSync in the same thread ..." *)
  | ValueError_task_done            (* "task_done() called too many times" *)
  | InvalidStateError.              (* a result cell set a second time *)

Inductive outcome (A : Type) : Type :=
  | Returns (a : A)
  | Raises (e : exn).
Arguments Returns {A} a.
Arguments Raises {A} e.

(** A method body: it reads and writes the object's state and either returns
    or raises; the state reached is kept in both cases. *)
Definition M (S A : Type) : Type := S -> S * outcome A.

Definition ret {S A} (a : A) : M S A := fun s => (s, Returns a).
Definition raise {S A} (e : exn) : M S A := fun s => (s, Raises e).
Definition bind {S A B} (m : M S A) (k : A -> M S B) : M S B :=
  fun s => match m s with
           | (s', Returns a) => k a s'
           | (s', Raises e) => (s', Raises e)
           end.
Definition modify {S} (f : S -> S) : M S unit := fun s => (f s, Returns tt).

Notation "x <~ m ;; k" := (bind m (fun x => k))
  (at level 100, m at next level, right associativity).
Notation "m ;;; k" := (bind m (fun _ => k))
  (at level 100, right associativity).

(** ** Python sequences *)

(** [l[i]] on a Python list: a negative index counts from the end, and an
    index outside [-len l, len l) raises [IndexError] ([None] here). *)
Definition py_index (len : nat) (i : Z) : option nat :=
  if decide (0 <= i < Z.of_nat len) then Some (Z.to_nat i)
  else if decide (- Z.of_nat len <= i < 0) then Some (Z.to_nat (Z.of_nat len + i))
  else None.

(** [range(n)]: empty when [n <= 0]. *)
Definition py_range (n : Z) : list Z := seqZ 0 n.

(** [a % b] on Python integers: the sign of the divisor, and an exception
    on a zero divisor. *)
Definition py_mod {S} (a b : Z) : M S Z :=
  if decide (b = 0) then raise ZeroDivisionError else ret (a mod b).

(** ** [queue.Queue] *)

(** The items waiting in the queue, oldest first, and the counter of tasks
    put and not yet reported done, on which [join] waits. *)
Record queue (A : Type) : Type := Queue {
  items : list A;
  unfinished_tasks : nat
}.
Arguments Queue {A} items unfinished_tasks.
Arguments items {A} q.
Arguments unfinished_tasks {A} q.

Definition new_queue {A} : queue A := Queue [] 0.

(** [q.put(x)]: the queue is unbounded, so [put] never waits. *)
Definition put {A} (x : A) (q : queue A) : queue A :=
  Queue (items q ++ [x]) (S (unfinished_tasks q)).

(** [q.get()]: the oldest item; [None] when the caller has to wait. *)
Definition get {A} (q : queue A) : option (A * queue A) :=
  match items q with
  | [] => None
  | x :: rest => Some (x, Queue rest (unfinished_tasks q))
  end.

(** [q.task_done()]: [None] for the [ValueError] of one call too many. *)
Definition task_done {A} (q : queue A) : option (queue A) :=
  match unfinished_tasks q with
  | O => None
  | S n => Some (Queue (items q) n)
  end.

(** ** The pool: [DistributedThreads] *)

Section Pool.

(** Affinity keys (compared with [==] by [key in watching]), tasks (the
    triple [(f, args, kwargs)] put on a queue) and the output queue. *)
Context {Key : Type} `{!EqDecision Key} {Task Sink : Type}.

(** The fields [__init__] and [init_worker] set ([worker_list], the
    threads, apart).  A watching deque holds keys, leftmost first.  The
    methods of the pool only put tasks on the queues; the worker threads,
    which take them off, are modelled below, and a queue is shown here as
    the calls of the pool leave it. *)
Record pool : Type := Pool {
  out_queue : option Sink;
  max_workers : Z;
  max_watching : Z;
  current_id : Z;
  queue_list : list (queue Task);
  watching_list : list (list Key)
}.

Definition set_current_id (i : Z) (p : pool) : pool :=
  Pool (out_queue p) (max_workers p) (max_watching p) i
       (queue_list p) (watching_list p).
Definition set_queue_list (q : list (queue Task)) (p : pool) : pool :=
  Pool (out_queue p) (max_workers p) (max_watching p) (current_id p)
       q (watching_list p).
Definition set_watching_list (w : list (list Key)) (p : pool) : pool :=
  Pool (out_queue p) (max_workers p) (max_watching p) (current_id p)
       (queue_list p) w.

(** [DistributedThreads(out_queue, max_workers, max_watching)]:
    [range(max_workers)] empty queues and empty deques, cursor 0. *)
Definition init (oq : option Sink) (workers watching : Z) : pool :=
  Pool oq workers watching 0
       (replicate (Z.to_nat workers) new_queue)
       (replicate (Z.to_nat workers) []).

(** [iterate_queue(watching, key)] on the contents of the deque
    [watching]: append the key when it is new and not [None], then drop
    the leftmost key when the deque is longer than [max_watching];
    [popleft] on an empty deque raises [IndexError]. *)
Definition iterate_queue (maxw : Z) (key : option Key) : M (list Key) unit :=
  (match key with
   | Some k => fun watching =>
       if decide (k ∈ watching) then (watching, Returns tt)
       else (watching ++ [k], Returns tt)
   | None => ret tt
   end) ;;;
  (fun watching =>
     if decide (maxw < Z.of_nat (length watching)) then
       match watching with
       | [] => (watching, Raises IndexError)
       | _ :: rest => (rest, Returns tt)
       end
     else (watching, Returns tt)).

(** [choose_worker()]. *)
Definition choose_worker : M pool Z :=
  fun p => py_mod (current_id p + 1) (max_workers p) p.

(** [self.watching_list[i]] and [self.queue_list[i]], as positions. *)
Definition watching_at (i : Z) : M pool (nat * list Key) :=
  fun p => match py_index (length (watching_list p)) i with
           | Some n => match watching_list p !! n with
                       | Some w => (p, Returns (n, w))
                       | None => (p, Raises IndexError)
                       end
           | None => (p, Raises IndexError)
           end.
Definition queue_at (i : Z) : M pool (nat * queue Task) :=
  fun p => match py_index (length (queue_list p)) i with
           | Some n => match queue_list p !! n with
                       | Some q => (p, Returns (n, q))
                       | None => (p, Raises IndexError)
                       end
           | None => (p, Raises IndexError)
           end.

(** The loop of [submit_id] over [range(self.max_workers)], with the local
    [worker_id] carried along: at the first deque that holds the key it
    raises when [worker_id] is already set, and otherwise sets [worker_id]
    and the cursor and leaves the loop ([break]). *)
Fixpoint scan_workers (k : Key) (ids : list Z) (worker_id : option Z)
  : M pool (option Z) :=
  match ids with
  | [] => ret worker_id
  | i :: ids' =>
      w <~ watching_at i ;;
      if decide (k ∈ snd w) then
        match worker_id with
        | Some _ => raise ValueError_key_in_two_workers
        | None => modify (set_current_id i) ;;; ret (Some i)
        end
      else scan_workers k ids' worker_id
  end.

(** [iterate_queue] applied to the deque object at position [n] of
    [watching_list]. *)
Definition iterate_queue_at (n : nat) (watching : list Key) (key : option Key)
  : M pool unit :=
  fun p => match iterate_queue (max_watching p) key watching with
           | (w', o) => (set_watching_list (<[n := w']> (watching_list p)) p, o)
           end.

(** [worker.put((f, args, kwargs))] on the queue object at position [n]. *)
Definition put_at (n : nat) (q : queue Task) (t : Task) : M pool unit :=
  modify (fun p => set_queue_list (<[n := put t q]> (queue_list p)) p).

(** [submit_id(key, f, *args, **kwargs)]. *)
Definition submit_id (key : option Key) (t : Task) : M pool unit :=
  found <~ match key with
           | Some k => fun p => scan_workers k (py_range (max_workers p)) None p
           | None => ret None
           end ;;
  worker_id <~ match found with
               | Some i => ret i
               | None => i <~ choose_worker ;;
                         modify (set_current_id i) ;;; ret i
               end ;;
  worker <~ queue_at worker_id ;;
  watching <~ watching_at worker_id ;;
  iterate_queue_at (fst watching) (snd watching) key ;;;
  put_at (fst worker) (snd worker) t.

(** [submit(f, *args, **kwargs)]. *)
Definition submit (t : Task) : M pool unit := submit_id None t.

(** *** Sequences of submissions *)

(** One call of [submit_id] (with [None] as key for [submit]), and the
    state it leaves, whether it returned or raised. *)
Definition submission : Type := (option Key * Task)%type.

Definition after (p : pool) (c : submission) : pool :=
  fst (submit_id (fst c) (snd c) p).

(** The pool after each call of a sequence, in order. *)
Fixpoint states_after (p : pool) (cs : list submission) : list pool :=
  match cs with
  | [] => []
  | c :: cs' => after p c :: states_after (after p c) cs'
  end.

Definition run_all (p : pool) (cs : list submission) : pool :=
  foldl after p cs.

(** The tasks of a sequence of calls that end on the queue of worker
    [w]: [submit_id] leaves in [current_id] the worker it has chosen. *)
Fixpoint routed_to (w : Z) (p : pool) (cs : list submission) : list Task :=
  match cs with
  | [] => []
  | c :: cs' =>
      (if decide (current_id (after p c) = w) then [snd c] else [])
      ++ routed_to w (after p c) cs'
  end.

(** The tasks submitted with key [k], in submission order. *)
Definition tasks_of_key (k : Key) (cs : list submission) : list Task :=
  snd <$> filter (fun c => fst c = Some k) cs.

(** The calls [submit(t)] for the tasks of a list. *)
Definition unkeyed (ts : list Task) : list submission :=
  (fun t => (None, t)) <$> ts.

(** *** Affinity sets *)

(** Worker [i] holds key [k] in its affinity set. *)
Definition owns (p : pool) (i : nat) (k : Key) : Prop :=
  exists w, watching_list p !! i = Some w /\ k ∈ w.

Definition at_most_one_owner (p : pool) : Prop :=
  forall k i j, owns p i k -> owns p j k -> i = j.

Definition within_capacity (p : pool) : Prop :=
  forall i w, watching_list p !! i = Some w ->
              Z.of_nat (length w) <= max_watching p.

(** A pool as [init_worker] builds it: one queue and one deque per
    worker, at least one worker, a capacity that is not negative. *)
Definition well_formed (p : pool) : Prop :=
  1 <= max_workers p /\ 0 <= max_watching p /\
  length (queue_list p) = Z.to_nat (max_workers p) /\
  length (watching_list p) = Z.to_nat (max_workers p).

(** What holds of every pool a program can reach. *)
Definition pool_ok (p : pool) : Prop :=
  well_formed p /\ at_most_one_owner p /\ within_capacity p.

(** Key [k] is in the affinity set of worker [w] before each call of the
    sequence that carries [k]. *)
Fixpoint resident_at_each_use (k : Key) (w : nat) (p : pool)
  (cs : list submission) : Prop :=
  match cs with
  | [] => True
  | c :: cs' =>
      (fst c = Some k -> owns p w k) /\
      resident_at_each_use k w (after p c) cs'
  end.

(** Feeding the keys of a list, in order, to one deque. *)
Fixpoint insert_keys (maxw : Z) (ks : list Key) (watching : list Key)
  : list Key :=
  match ks with
  | [] => watching
  | k :: ks' => insert_keys maxw ks' (fst (iterate_queue maxw (Some k) watching))
  end.

(** Round-robin: of the tasks [ts], given out one worker after the other
    starting at worker [start mod n], those that worker [i] gets. *)
Fixpoint round_robin_share (n start i : Z) (ts : list Task) : list Task :=
  match ts with
  | [] => []
  | t :: ts' =>
      (if decide (start mod n = i) then [t] else [])
      ++ round_robin_share n (start + 1) i ts'
  end.

End Pool.

Arguments pool : clear implicits.
Arguments submission : clear implicits.

(** ** The worker: [AsyncThread.run] *)

Section Worker.

(** A task is called with its arguments and returns a result or raises
    an exception of the program's own. *)
Context {Task Result Exc : Type}.
Variable call : Task -> Result + Exc.

(** The fields of the thread object, [self.queue] and [self.out_queue]. *)
Record worker : Type := Worker {
  wqueue : queue Task;
  wout : option (queue Result)
}.

(** Where the thread is: waiting in [queue.get()] on an empty queue,
    ended by an exception that left [run], or still in the loop. *)
Inductive thread_state : Type :=
  | Waiting
  | Terminated (cause : Exc + exn)
  | Looping.

(** One turn of the [while True] loop.  [input_function] and
    [output_function] do nothing.  The result is the state of the thread
    when the turn does not reach the end of the loop body. *)
Definition run_body (w : worker) : worker * option thread_state :=
  match get (wqueue w) with
  | None => (w, Some Waiting)
  | Some (t, q) =>
      match call t with
      | inr e => (Worker q (wout w), Some (Terminated (inl e)))
      | inl result =>
          let out := match wout w with
                     | Some o => Some (put result o)
                     | None => None
                     end in
          match task_done q with
          | None => (Worker q out, Some (Terminated (inr ValueError_task_done)))
          | Some q' => (Worker q' out, None)
          end
      end
  end.

(** [run()], for at most [fuel] turns of the loop. *)
Fixpoint run (fuel : nat) (w : worker) : worker * thread_state :=
  match fuel with
  | O => (w, Looping)
  | S fuel' =>
      match run_body w with
      | (w', Some st) => (w', st)
      | (w', None) => run fuel' w'
      end
  end.

(** The output queue after the results [rs] have been put on it. *)
Definition forwarded (rs : list Result) (out : option (queue Result))
  : option (queue Result) :=
  match out with
  | Some o => Some (Queue (items o ++ rs) (unfinished_tasks o + length rs))
  | None => None
  end.

End Worker.

Arguments worker : clear implicits.
Arguments thread_state : clear implicits.
Arguments forwarded {Result} rs out.

(** ** The bridge: [AsyncToSync] *)

Section Bridge.

(** Arguments and results of the wrapped awaitable, and the exception
    objects it may raise; [is_Exception e] is [isinstance(e, Exception)],
    which [except Exception] tests (it is false of [KeyboardInterrupt],
    [SystemExit], [asyncio.CancelledError], ...).  [stops_loop e] tells
    the exceptions that [asyncio] does not keep in the task they leave but
    raises again out of [run_forever]: [KeyboardInterrupt] and
    [SystemExit] (every exception that is not an [Exception], before
    Python 3.8). *)
Context {Args Val Exc : Type}.
Variable is_Exception : Exc -> bool.
Variable stops_loop : Exc -> bool.

(** What awaiting the call of the awaitable on the arguments ends in. *)
Inductive awaited : Type :=
  | Completes (v : Val)
  | Throws (e : Exc).

(** A [concurrent.futures.Future]: set once, with a result or with an
    exception. *)
Inductive cell : Type :=
  | Pending
  | HasResult (v : Val)
  | HasException (e : Exc).

(** The coroutine object [main_wrap(args, kwargs, call_result)]: the
    awaitable of the adapter, the arguments and the cell (its position in
    the store of cells). *)
Record coroutine : Type := Coroutine {
  co_awaitable : Args -> awaited;
  co_args : Args;
  co_cell : nat
}.

(** An event loop: whether some thread runs it, whether it is closed,
    which library made it, and the coroutines handed to it with
    [call_soon_threadsafe(create_task, ...)] and not yet started. *)
Record loop : Type := Loop {
  is_running : bool;
  is_closed : bool;
  from_uvloop : bool;
  scheduled : list coroutine
}.

(** What the calling thread sees: the loops and cells that exist, and
    the loop [asyncio.get_event_loop()] gives in this thread ([None]
    when it raises [RuntimeError]: no current event loop). *)
Record world : Type := World {
  loops : list loop;
  current_loop : option nat;
  futures : list cell
}.

(** The adapter object. *)
Record AsyncToSync : Type := MkAsyncToSync {
  awaitable : Args -> awaited;
  uvloop : bool;
  main_event_loop : option nat
}.

(** What a call raises: an exception of the modelled code or of the
    library, or the one the awaitable raised. *)
Inductive thrown : Type :=
  | Builtin (e : exn)
  | FromAwaitable (e : Exc).

(** How the synchronous call ends; [Waits]: it stays in
    [call_result.result()], on a cell that nothing will set. *)
Inductive call_end : Type :=
  | Value (v : Val)
  | Error (e : thrown)
  | Waits.

Definition loop_running (w : world) (l : nat) : bool :=
  match loops w !! l with
  | Some lp => is_running lp
  | None => false
  end.

(** The test at the head of [__call__]: the calling thread has a current
    event loop and that loop is running. *)
Definition in_running_loop (w : world) : bool :=
  match current_loop w with
  | Some l => loop_running w l
  | None => false
  end.

(** [call_result.set_result(v)] and [call_result.set_exception(e)]:
    a cell that is already set refuses. *)
Definition set_cell (c : nat) (x : cell) (fs : list cell)
  : list cell * option thrown :=
  match fs !! c with
  | Some Pending => (<[c := x]> fs, None)
  | _ => (fs, Some (Builtin InvalidStateError))
  end.

(** [main_wrap]: await the awaitable; an exception that is an
    [Exception] goes to the cell, any other leaves the coroutine; a
    result goes to the cell. *)
Definition main_wrap (co : coroutine) (fs : list cell)
  : list cell * option thrown :=
  match co_awaitable co (co_args co) with
  | Throws e =>
      if is_Exception e then set_cell (co_cell co) (HasException e) fs
      else (fs, Some (FromAwaitable e))
  | Completes v => set_cell (co_cell co) (HasResult v) fs
  end.

(** A loop starts one coroutine: the cells afterwards, and whether the
    loop goes on.  An exception that leaves the coroutine stays in its
    task and the loop goes on, unless it is one that [run_forever] lets
    through: then the loop stops. *)
Definition start (co : coroutine) (fs : list cell) : list cell * bool :=
  match main_wrap co fs with
  | (fs', Some (FromAwaitable e)) => (fs', negb (stops_loop e))
  | (fs', _) => (fs', true)
  end.

(** A running loop starts the coroutines handed to it, in order, until
    one stops it: the cells afterwards, whether the loop still runs, and
    the coroutines that it has not started. *)
Fixpoint start_all (cos : list coroutine) (fs : list cell)
  : list cell * bool * list coroutine :=
  match cos with
  | [] => (fs, true, [])
  | co :: cos' =>
      let '(fs', goes_on) := start co fs in
      if goes_on then start_all cos' fs' else (fs', false, cos')
  end.

Definition run_loop (lp : loop) (fs : list cell) : loop * list cell :=
  if is_running lp then
    let '(fs', runs, rest) := start_all (scheduled lp) fs in
    (Loop runs (is_closed lp) (from_uvloop lp) rest, fs')
  else (lp, fs).

Fixpoint run_loops (ls : list loop) (fs : list cell) : list loop * list cell :=
  match ls with
  | [] => ([], fs)
  | lp :: ls' =>
      let '(lp', fs') := run_loop lp fs in
      let '(ls'', fs'') := run_loops ls' fs' in
      (lp' :: ls'', fs'')
  end.

(** The loops that run, each on its own thread, start the coroutines
    handed to them. *)
Definition run_scheduled (w : world) : world :=
  let '(ls, fs) := run_loops (loops w) (futures w) in
  World ls (current_loop w) fs.

(** [call_result.result()]: the content of the cell once it is set; the
    caller waits while it is not, and the running loops go on. *)
Definition future_result (c : nat) (w : world) : world * call_end :=
  let read (w' : world) :=
    match futures w' !! c with
    | Some (HasResult v) => Some (Value v)
    | Some (HasException e) => Some (Error (FromAwaitable e))
    | _ => None
    end in
  match read w with
  | Some r => (w, r)
  | None => let w' := run_scheduled w in
            match read w' with
            | Some r => (w', r)
            | None => (w', Waits)
            end
  end.

(** [main_event_loop.call_soon_threadsafe(create_task, coroutine)]. *)
Definition call_soon_threadsafe (l : nat) (co : coroutine) (w : world) : world :=
  World
    (alter (fun lp => Loop (is_running lp) (is_closed lp) (from_uvloop lp)
                           (scheduled lp ++ [co])) l (loops w))
    (current_loop w) (futures w).

(** [AsyncToSync.__call__], on the arguments [args]. *)
Definition AsyncToSync_call (self : AsyncToSync) (args : Args) (w : world)
  : world * call_end :=
  if in_running_loop w then (w, Error (Builtin RuntimeError_running_loop))
  else
    (* call_result = Future() *)
    let call_result := length (futures w) in
    let w1 := World (loops w) (current_loop w) (futures w ++ [Pending]) in
    let co := Coroutine (awaitable self) args call_result in
    let home_runs :=
      match main_event_loop self with
      | Some l => loop_running w1 l
      | None => false
      end in
    if negb home_runs then
      (* loop = new_event_loop(); asyncio.set_event_loop(loop);
         loop.run_until_complete(main_wrap(...)) *)
      let '(fs, escaped) := main_wrap co (futures w1) in
      (* finally: shutdown_asyncgens (no generator is left), loop.close(),
         asyncio.set_event_loop(self.main_event_loop) *)
      let w2 := World (loops w1 ++ [Loop false true (uvloop self) []])
                      (main_event_loop self) fs in
      match escaped with
      | Some e => (w2, Error e)
      | None => future_result call_result w2
      end
    else
      match main_event_loop self with
      | Some l => future_result call_result (call_soon_threadsafe l co w1)
      | None => future_result call_result w1
      end.

(** What [main_wrap] stores in the cell: the result, or the exception when
    it is an [Exception]; nothing otherwise. *)
Definition settled (r : awaited) : option cell :=
  match r with
  | Completes v => Some (HasResult v)
  | Throws e => if is_Exception e then Some (HasException e) else None
  end.

(** How a call ends that finds [x] in its cell. *)
Definition end_of_cell (x : cell) : call_end :=
  match x with
  | HasResult v => Value v
  | HasException e => Error (FromAwaitable e)
  | Pending => Waits
  end.

(** No coroutine waiting on a loop holds a cell that does not exist yet:
    a [Future()] made later is a new object. *)
Definition world_ok (w : world) : Prop :=
  forall lp co, lp ∈ loops w -> co ∈ scheduled lp ->
                (co_cell co < length (futures w))%nat.

(** The coroutine stops the loop that starts it: its awaitable raises an
    exception that [main_wrap] does not catch and that [run_forever] lets
    through. *)
Definition stops (co : coroutine) : bool :=
  match co_awaitable co (co_args co) with
  | Throws e => negb (is_Exception e) && stops_loop e
  | Completes _ => false
  end.

(** None of the coroutines that wait on the loop stops it. *)
Definition keeps_running (lp : loop) : Prop :=
  Forall (fun co => stops co = false) (scheduled lp).

End Bridge.

Arguments awaited : clear implicits.
Arguments cell : clear implicits.
Arguments coroutine : clear implicits.
Arguments loop : clear implicits.
Arguments world : clear implicits.
Arguments AsyncToSync : clear implicits.
Arguments thrown : clear implicits.
Arguments call_end : clear implicits.

(** ** Waiting for the queues: [q.join()] and [shutdown] *)

(** [q.join()] returns when no task of the queue is unfinished; until
    then the caller waits. *)
Definition join_returns {A} (q : queue A) : bool :=
  bool_decide (unfinished_tasks q = 0%nat).

Section Shutdown.

Context {Key Task Sink : Type}.

(** [shutdown()]: [q.join()] on each queue of [queue_list], in order.
    [None]: every [join] returns, and so does [shutdown]; [Some i]: the
    caller waits in the [join] of queue [i]. *)
Definition shutdown (p : pool Key Task Sink) : option nat :=
  fst <$> list_find (fun q => join_returns q = false) (queue_list p).

(** The tasks that wait on the queues of the pool, queue after queue. *)
Definition waiting (p : pool Key Task Sink) : list Task :=
  concat ((fun q => items q) <$> queue_list p).

(** A pool built with a negative capacity: at least one worker, a queue
    and a deque per worker, and every deque empty. *)
Definition negative_capacity (p : pool Key Task Sink) : Prop :=
  1 <= max_workers p /\ max_watching p < 0 /\
  length (queue_list p) = Z.to_nat (max_workers p) /\
  length (watching_list p) = Z.to_nat (max_workers p) /\
  forall (j : nat) w, watching_list p !! j = Some w -> w = [].

End Shutdown.

(** ** The pool and its worker threads *)

Section PoolAndWorkers.

Context {Key Task Result Exc : Type}.
Variable call : Task -> Result + Exc.

(** The queue of a worker thread once the thread has gone through at most
    [fuel] turns of its loop.  (What the thread puts on the output queue
    has no part in what it does to its own queue.) *)
Definition worked_off (fuel : nat) (q : queue Task) : queue Task :=
  wqueue (fst (run call fuel (Worker q None))).

(** The pool once each of its worker threads has gone through at most
    [fuel] turns, as far as the queues of the workers go. *)
Definition after_work (fuel : nat) (p : pool Key Task (queue Result))
  : pool Key Task (queue Result) :=
  set_queue_list (worked_off fuel <$> queue_list p) p.

End PoolAndWorkers.

(** ** The bridge: [AsyncToSync.__init__] and [SyncToAsync] *)

Section Executor.

Context {Args Val Exc : Type}.
Variable is_Exception : Exc -> bool.
Variable stops_loop : Exc -> bool.

(** [AsyncToSync.__init__(awaitable)], in a thread that sees the world [w]
    and whose slot [SyncToAsync.threadlocal.main_event_loop] is
    [threadlocal] ([None] when the thread has never set it): the current
    event loop of the thread when it has one, the slot otherwise. *)
Definition AsyncToSync_init (aw : Args -> awaited Val Exc)
    (w : world Args Val Exc) (threadlocal : option nat) : AsyncToSync Args Val Exc :=
  MkAsyncToSync aw false
    (match current_loop w with
     | Some l => Some l
     | None => threadlocal
     end).

(** A synchronous function as [SyncToAsync] wraps one: called with its
    arguments, in a thread with its own slot and its own view of the
    world, it ends as a call does. *)
Definition sync_function : Type :=
  Args -> option nat -> world Args Val Exc -> world Args Val Exc * call_end Val Exc.

(** [SyncToAsync.thread_handler(loop, *args)], in the thread of the
    executor that takes the job: it sets the slot of that thread to [loop]
    and calls the function.  The result is the slot and what the call of
    the function gives. *)
Definition thread_handler (func : sync_function) (loop : nat) (args : Args)
    (w : world Args Val Exc)
  : option nat * (world Args Val Exc * call_end Val Exc) :=
  (Some loop, func args (Some loop) w).

(** [SyncToAsync.__call__], awaited by a coroutine in the world [w]:
    [asyncio.get_event_loop()] ([None] for its [RuntimeError] when there
    is no current loop), then [thread_handler] in a thread of the
    executor, whose current event loop is [executor_loop]; the coroutine
    gets what the function returned or raised.  The loops and the cells
    are the same for both threads; each has its own current loop. *)
Definition SyncToAsync_call (func : sync_function) (args : Args)
    (executor_loop : option nat) (w : world Args Val Exc)
  : option (option nat * (world Args Val Exc * call_end Val Exc)) :=
  match current_loop w with
  | None => None
  | Some loop =>
      let '(slot, (w', r)) :=
        thread_handler func loop args (World (loops w) executor_loop (futures w)) in
      Some (slot, (World (loops w') (current_loop w) (futures w'), r))
  end.

(** The synchronous function that builds an [AsyncToSync] around an
    awaitable, where it runs, and calls it. *)
Definition calls_back (op : Args -> awaited Val Exc) : sync_function :=
  fun args threadlocal w =>
    AsyncToSync_call is_Exception stops_loop (AsyncToSync_init op w threadlocal) args w.

(** How a call ends that runs the awaitable in a loop of its own. *)
Definition end_of_awaited (r : awaited Val Exc) : call_end Val Exc :=
  match r with
  | Completes v => Value v
  | Throws e => Error (FromAwaitable e)
  end.

End Executor.

(** * [Interservices.py]: what a handler returns and what the caller gets *)

Section Interservices.

(** Python floats are kept as they are: nothing here computes with them. *)
Context {Float : Type}.

(** The Python values that handlers return and that JSON carries: [None],
    booleans, integers, floats, strings, lists, tuples, dictionaries (with
    string keys, the only ones JSON has, in insertion order), and any other
    object, given by what [dir] lists for it: the name of each attribute,
    its value, and whether [inspect.ismethod] holds of the value. *)
Inductive pyval : Type :=
  | PNone
  | PBool (b : bool)
  | PInt (z : Z)
  | PFloat (x : Float)
  | PStr (s : string)
  | PList (l : list pyval)
  | PTuple (l : list pyval)
  | PDict (d : list (string * pyval))
  | PObject (attrs : list (string * pyval * bool)).

(** [propsOBJ(obj)]: the attributes whose name does not start with two
    underscores and whose value is not a method. *)
Definition propsOBJ (attrs : list (string * pyval * bool)) : pyval :=
  PDict (omap (fun a : string * pyval * bool =>
                 let '(name, value, is_method) := a in
                 if negb (String.prefix "__" name) && negb is_method
                 then Some (name, value) else None) attrs).

(** [oneResponse(res)].  The tests are, in order: [None]; [dict], [float],
    [int] (which [bool] is a subclass of) or [str]; [list]; [tuple];
    [object], which every value is, so that the last branch of the source
    is never taken. *)
Definition oneResponse (res : pyval) : pyval :=
  match res with
  | PNone => PDict [("obj", PNone)]
  | PDict _ | PFloat _ | PInt _ | PBool _ | PStr _ => PDict [("obj", res)]
  | PList l => PDict [("obj", PList l)]
  | PTuple l => PDict [("obj", PList l)]
  | PObject attrs => PDict [("obj", propsOBJ attrs)]
  end.

(** [microResponse], on the tuple of its arguments: one entry for each
    argument, or for each item of an argument that is a tuple. *)
Definition microResponse (args : list pyval) : pyval :=
  PDict [("res",
          PList (concat ((fun arg => match arg with
                                     | PTuple items => oneResponse <$> items
                                     | _ => [oneResponse arg]
                                     end) <$> args)))].

(** What [json.loads] reads back from what [json.dumps] writes: a tuple
    comes back as a list, the other JSON values as they are, and an object
    that is none of these cannot be written ([None] for the
    [TypeError]). *)
Fixpoint wire (v : pyval) : option pyval :=
  match v with
  | PNone | PBool _ | PInt _ | PFloat _ | PStr _ => Some v
  | PList l | PTuple l =>
      PList <$> (fix items (l : list pyval) : option (list pyval) :=
                   match l with
                   | [] => Some []
                   | x :: l' =>
                       match wire x, items l' with
                       | Some x', Some l'' => Some (x' :: l'')
                       | _, _ => None
                       end
                   end) l
  | PDict d =>
      PDict <$> (fix entries (d : list (string * pyval))
                   : option (list (string * pyval)) :=
                   match d with
                   | [] => Some []
                   | (k, x) :: d' =>
                       match wire x, entries d' with
                       | Some x', Some d'' => Some ((k, x') :: d'')
                       | _, _ => None
                       end
                   end) d
  | PObject _ => None
  end.

(** [wire] on each value of a list. *)
Fixpoint wire_all (l : list pyval) : option (list pyval) :=
  match l with
  | [] => Some []
  | x :: l' =>
      match wire x, wire_all l' with
      | Some x', Some l'' => Some (x' :: l'')
      | _, _ => None
      end
  end.

(** *** The operators the code applies to what it has received

    [None] stands for the exception ([TypeError], [KeyError],
    [IndexError]) that the operator raises. *)

(** [d[k]] on a dictionary. *)
Fixpoint dict_get (d : list (string * pyval)) (k : string) : option pyval :=
  match d with
  | [] => None
  | (k', v) :: d' => if decide (k' = k) then Some v else dict_get d' k
  end.

(** [d[k] = v] on a dictionary. *)
Fixpoint dict_set (d : list (string * pyval)) (k : string) (v : pyval)
  : list (string * pyval) :=
  match d with
  | [] => [(k, v)]
  | (k', v') :: d' =>
      if decide (k' = k) then (k, v) :: d' else (k', v') :: dict_set d' k v
  end.

(** [item == x], for a string [item]. *)
Definition is_str (item : string) (x : pyval) : bool :=
  match x with
  | PStr s => bool_decide (s = item)
  | _ => false
  end.

(** [item in x], for a string [item]: a key of a dictionary, an item of a
    list or tuple, a substring of a string; any other value is not
    iterable. *)
Definition py_contains (x : pyval) (item : string) : option bool :=
  match x with
  | PDict d => Some (bool_decide (is_Some (dict_get d item)))
  | PList l | PTuple l => Some (existsb (is_str item) l)
  | PStr s => Some (bool_decide (is_Some (String.index 0 item s)))
  | _ => None
  end.

(** [x[key]]. *)
Definition py_getitem (x key : pyval) : option pyval :=
  match x with
  | PDict d =>
      match key with
      | PStr k => dict_get d k
      | _ => None
      end
  | PList l | PTuple l =>
      match key with
      | PInt i => n ← py_index (length l) i; l !! n
      | PBool b => l !! (if b then 1 else 0)%nat
      | _ => None
      end
  | PStr s =>
      let char (n : nat) := (fun c => PStr (String c EmptyString)) <$> String.get n s in
      match key with
      | PInt i => n ← py_index (String.length s) i; char n
      | PBool b => char (if b then 1 else 0)%nat
      | _ => None
      end
  | _ => None
  end.

(** [for item in x]: the items of a list or tuple, the keys of a
    dictionary, the characters of a string. *)
Definition py_iter (x : pyval) : option (list pyval) :=
  match x with
  | PList l | PTuple l => Some l
  | PDict d => Some ((fun kv => PStr (fst kv)) <$> d)
  | PStr s => Some ((fun c => PStr (String c EmptyString)) <$> String.list_ascii_of_string s)
  | _ => None
  end.

(** *** The server: [Microservice.typing] and [Microservice.reply] *)

(** [str(token)] is left to Python. *)
Variable py_str : pyval -> string.

(** [self.token]: for each rule, a token (a string) or [None]. *)
Definition tokens : Type := gmap string (option string).

(** What [typing(rule, token=...)] does to [self.token]. *)
Definition typing (token : tokens) (rule : string) (given : pyval) : tokens :=
  <[rule := Some (py_str given)]> token.

(** [remove(token)]: [self.token.pop(token, None)]. *)
Definition remove (token : tokens) (rule : string) : tokens * option string :=
  (delete rule token, default None (token !! rule)).

(** [stored == sent], for a stored token and a value of the request. *)
Definition token_eq (stored : option string) (sent : pyval) : bool :=
  match stored, sent with
  | None, PNone => true
  | Some s, PStr s' => bool_decide (s = s')
  | _, _ => false
  end.

(** A handler: called with positional and named arguments, it returns a
    value, or raises ([None]). *)
Definition handler : Type := list pyval -> list (string * pyval) -> option pyval.

(** How the wrapper that [reply(f)] makes ends. *)
Inductive served : Type :=
  | TokenIsWrong   (* returns {'type': 'error', 'obj': 'Token is wrong'} *)
  | NoJson         (* raises ValueError('Request contain no json') *)
  | Fails          (* raises another exception *)
  | Replies (r : pyval).   (* returns microResponse(f( *args, **kwargs)) *)

(** The loop [for key in content['kwargs']: kwargs[key] =
    content['kwargs'][key]].  A key that is not a string is either not
    hashable or refused by the call [f( *args, **kwargs)]: the wrapper
    raises in both cases. *)
Fixpoint add_kwargs (kw : pyval) (keys : list pyval)
    (kwargs : list (string * pyval)) : option (list (string * pyval)) :=
  match keys with
  | [] => Some kwargs
  | key :: keys' =>
      match py_getitem kw key, key with
      | Some v, PStr k => add_kwargs kw keys' (dict_set kwargs k v)
      | _, _ => None
      end
  end.

(** The wrapper of [reply(f)], for the request path [path], the JSON body
    [content] that [request.get_json(silent=True)] gives ([None] when there
    is none) and the arguments [args] and [kwargs] of the call. *)
Definition reply (token : tokens) (f : handler) (path : string)
    (content : option pyval) (args : list pyval) (kwargs : list (string * pyval))
  : served :=
  match content with
  | None | Some PNone => NoJson
  | Some content =>
      match py_contains content "token" with
      | None => Fails
      | Some has_token =>
          let wrong : option bool :=
            if has_token then
              match token !! path, py_getitem content (PStr "token") with
              | Some stored, Some sent =>
                  Some (negb (token_eq stored sent) && bool_decide (stored = None))
              | _, _ => None
              end
            else Some false in
          match wrong with
          | None => Fails
          | Some true => TokenIsWrong
          | Some false =>
              match py_getitem content (PStr "args") ≫= py_iter with
              | None => Fails
              | Some more =>
                  match py_getitem content (PStr "kwargs") with
                  | None => Fails
                  | Some kw =>
                      match py_iter kw ≫= (fun keys => add_kwargs kw keys kwargs) with
                      | None => Fails
                      | Some kwargs' =>
                          match f (args ++ more) kwargs' with
                          | None => Fails
                          | Some result => Replies (microResponse [result])
                          end
                      end
                  end
              end
          end
      end
  end.

(** *** The client: [Friend] *)

(** A [requests.Response]: the status, the header [Content-Type] when
    there is one, what [r.json()] gives ([None] when the body is not
    JSON) and [r.text]. *)
Record response : Type := Response {
  status_code : Z;
  content_type : option string;
  json : option pyval;
  text : string
}.

(** The part of [send] in the [try]: [None] when it raises, which the
    [except] catches. *)
Definition unpack (res : pyval) : option pyval :=
  match py_contains res "res" with
  | None => None
  | Some false => Some res
  | Some true =>
      match py_getitem res (PStr "res") with
      | None => None
      | Some (PList entries) =>
          match mapM (fun arg => py_getitem arg (PStr "obj")) entries with
          | None => None
          | Some final =>
              if decide (length final <= 1)%nat then head final
              else Some (PList final)
          end
      | Some _ => Some res
      end
  end.

(** How [send] ends once the response [r] is there: what it leaves in
    [self.lastMessage], and what it returns; [None] when it raises (no
    header [Content-Type], or a body that is not JSON). *)
Definition receive (last : pyval) (r : response) : pyval * option pyval :=
  if decide (status_code r = 200) then
    match content_type r with
    | None => (last, None)
    | Some ct =>
        if decide (ct = "application/json") then
          match json r with
          | None => (last, None)
          | Some res =>
              match unpack res with
              | Some final => (res, Some final)
              | None => (res, Some (PStr (text r)))
              end
          end
        else (PStr (text r), Some (PStr (text r)))
    end
  else (PNone, Some PNone).

(** The dictionaries that [Friend] objects hold, by address.  The two
    dictionaries that the defaults [token: dict = {}] and
    [ruleMethods: dict = {}] of [Friend.__init__] denote are made once,
    when the class is defined, at the addresses [default_token] and
    [default_ruleMethods]. *)
Definition dicts : Type := gmap nat (gmap string (option string)).

Definition default_token : nat := 0.
Definition default_ruleMethods : nat := 1.

Record Friend : Type := MkFriend {
  name : string;
  address : string;
  token : nat;
  lastMessage : pyval;
  lastreply : option response;
  ruleMethods : nat
}.

(** [Friend(name, address, token, ruleMethods)]; [None] for an argument
    that is left out. *)
Definition Friend_init (name address : string) (token ruleMethods : option nat)
  : Friend :=
  MkFriend name address (default default_token token) PNone None
           (default default_ruleMethods ruleMethods).

Definition dict_at (h : dicts) (a : nat) : gmap string (option string) :=
  default ∅ (h !! a).

(** [setRule(rule, method, token)]. *)
Definition setRule (self : Friend) (rule : string) (method given : option string)
    (h : dicts) : dicts :=
  let h1 := <[ruleMethods self := <[rule := method]> (dict_at h (ruleMethods self))]> h in
  <[token self := <[rule := given]> (dict_at h1 (token self))]> h1.

Inductive http_method : Type := GET | PUT | DELETE | POST.

(** The request that [send(rule, *args, **kwargs)] makes: the method, the
    URL and the JSON document. *)
Definition request (self : Friend) (h : dicts) (rule : string)
    (args : list pyval) (kwargs : list (string * pyval))
  : http_method * string * pyval :=
  let sent := match dict_at h (token self) !! rule with
              | Some stored => stored
              | None => None
              end in
  let jsonsend :=
    PDict [("args", PList args); ("kwargs", PDict kwargs);
           ("token", match sent with Some s => PStr s | None => PNone end)] in
  let method :=
    match dict_at h (ruleMethods self) !! rule with
    | Some (Some m) =>
        if decide (m = "GET") then GET
        else if decide (m = "PUT") then PUT
        else if decide (m = "DELETE") then DELETE
        else POST
    | _ => POST
    end in
  (method, address self +:+ rule, jsonsend).

(** [send(rule, *args, **kwargs)], with the network as a function from the
    request (its JSON document as the server reads it) to the response,
    or to [None] when [requests] raises.  The result is [None] when [send]
    raises. *)
Definition send (network : http_method -> string -> pyval -> option response)
    (self : Friend) (h : dicts) (rule : string)
    (args : list pyval) (kwargs : list (string * pyval))
  : Friend * option pyval :=
  let '(method, url, jsonsend) := request self h rule args kwargs in
  match wire jsonsend with
  | None => (self, None)
  | Some body =>
      match network method url body with
      | None => (self, None)
      | Some r =>
          let '(last, result) := receive (lastMessage self) r in
          (MkFriend (name self) (address self) (token self) last (Some r)
                    (ruleMethods self), result)
      end
  end.

(** What the handler's result is to the caller: the items of a tuple, or
    the one value. *)
Definition results (v : pyval) : list pyval :=
  match v with
  | PTuple items => items
  | _ => [v]
  end.

(** What [oneResponse] puts under ['obj']. *)
Definition payload (v : pyval) : pyval :=
  match v with
  | PTuple l => PList l
  | PObject attrs => propsOBJ attrs
  | _ => v
  end.

End Interservices.

Arguments pyval : clear implicits.
Arguments response : clear implicits.
Arguments Friend : clear implicits.
Arguments handler : clear implicits.
Arguments served : clear implicits.

(** ** Examples of pools and worlds *)

(** A pool of two workers whose deques both hold key 7. *)
Definition two_owners : pool nat nat unit :=
  Pool None 2 100 0 [new_queue; new_queue] [[7%nat]; [7%nat]].

(** A pool of two workers, cursor on worker 0, key 7 held by worker 1. *)
Definition key_on_worker_1 : pool nat nat unit :=
  Pool None 2 100 0 [new_queue; new_queue] [[]; [7%nat]].

(** A world for the examples: loop 0 runs in another thread and has
    nothing to do; the calling thread has no current loop; no cell yet.
    Exceptions are booleans, [true] for an instance of [Exception] and
    [false] for one that is not; [is_Exception] is then the identity, and
    [stops_loop] is [negb] when [false] is [KeyboardInterrupt] and the
    constant [false] when it is [asyncio.CancelledError]. *)
Definition home_loop_world : world unit nat bool :=
  World [Loop true false false []] None [].

(** The same loop, seen from the thread that runs it. *)
Definition inside_loop_world : world unit nat bool :=
  World [Loop true false false []] (Some 0%nat) [].

Definition adapter (op : unit -> awaited nat bool) : AsyncToSync unit nat bool :=
  MkAsyncToSync op false (Some 0%nat).

(** The home loop with work waiting on it: a coroutine for cell 0, whose
    operation raises an [Exception]. *)
Definition busy_loop_world : world unit nat bool :=
  World [Loop true false false [Coroutine (fun _ => Throws true) tt 0]] None [Pending].


(** The same loop and work, seen from a coroutine that the loop runs. *)
Definition working_loop_world : world unit nat bool :=
  World [Loop true false false [Coroutine (fun _ => Throws true) tt 0]] (Some 0%nat)
        [Pending].

(** The document and the response for a handler that has returned the pair
    of 1 and the pair of ['a'] and 2. *)
Definition pair_document : pyval Z :=
  PDict [("res", PList [PDict [("obj", PInt 1)];
                        PDict [("obj", PList [PStr "a"; PInt 2])]])].

Definition pair_response : response Z :=
  Response 200 (Some "application/json") (Some pair_document) "the body".


(** * Properties *)

(** ** Sequencing *)

Lemma bind_returns {S A B} (m : M S A) (k : A -> M S B) s s' a :
  m s = (s', Returns a) -> bind m k s = k a s'.
Proof. intros H. unfold bind. by rewrite H. Qed.

Lemma bind_raises {S A B} (m : M S A) (k : A -> M S B) s s' e :
  m s = (s', Raises e) -> bind m k s = (s', Raises e).
Proof. intros H. unfold bind. by rewrite H. Qed.

(** ** The deque of one worker *)

Section IterateQueue.

Context {Key : Type} `{!EqDecision Key}.
Implicit Types (w : list Key) (k : Key) (maxw : Z).

Lemma iterate_queue_unkeyed maxw w :
  Z.of_nat (length w) <= maxw ->
  iterate_queue maxw None w = (w, Returns tt).
Proof.
  intros Hlen. unfold iterate_queue, bind, ret.
  destruct (decide (maxw < Z.of_nat (length w))); [lia | done].
Qed.

Lemma iterate_queue_resident maxw k w :
  k ∈ w -> Z.of_nat (length w) <= maxw ->
  iterate_queue maxw (Some k) w = (w, Returns tt).
Proof.
  intros Hin Hlen. unfold iterate_queue, bind.
  rewrite decide_True by done.
  destruct (decide (maxw < Z.of_nat (length w))); [lia | done].
Qed.

Lemma iterate_queue_room maxw k w :
  k ∉ w -> Z.of_nat (length w) < maxw ->
  iterate_queue maxw (Some k) w = (w ++ [k], Returns tt).
Proof.
  intros Hin Hlen. unfold iterate_queue, bind.
  rewrite decide_False by done.
  rewrite decide_False; [done |].
  rewrite length_app; simpl; lia.
Qed.

Lemma iterate_queue_full maxw k w :
  k ∉ w -> Z.of_nat (length w) = maxw ->
  iterate_queue maxw (Some k) w = (tail (w ++ [k]), Returns tt).
Proof.
  intros Hin Hlen. unfold iterate_queue, bind.
  rewrite decide_False by done.
  rewrite decide_True by (rewrite length_app; simpl; lia).
  by destruct w.
Qed.

(** With a capacity that is not negative, [popleft] always finds a key. *)
Lemma iterate_queue_returns maxw key w :
  0 <= maxw -> snd (iterate_queue maxw key w) = Returns tt.
Proof.
  intros Hm. unfold iterate_queue, bind, ret.
  destruct key as [k|]; [destruct (decide (k ∈ w))|]; simpl;
    case_decide; try done;
    match goal with |- context [match ?l with [] => _ | _ :: _ => _ end] =>
      destruct l eqn:E end; simpl in *; try done; lia.
Qed.

(** The deque gains at most the key of the call, and only a new one. *)
Lemma iterate_queue_elem maxw key w x :
  x ∈ fst (iterate_queue maxw key w) ->
  x ∈ w \/ (key = Some x /\ x ∉ w).
Proof.
  unfold iterate_queue, bind, ret.
  destruct key as [k|]; [destruct (decide (k ∈ w)) as [Hk|Hk]|]; simpl;
    case_decide; simpl; try (by left).
  - destruct w; simpl; [by left|]. intros Hx. left. apply elem_of_cons; by right.
  - destruct (w ++ [k]) as [|y r] eqn:E; simpl; [by intros ?%elem_of_nil|].
    intros Hx.
    assert (Hin : x ∈ w ++ [k]) by (rewrite E; apply elem_of_cons; by right).
    apply elem_of_app in Hin as [?|Hin]; [by left|].
    apply list_elem_of_singleton in Hin as ->. by right.
  - intros [?|Hin]%elem_of_app; [by left|].
    apply list_elem_of_singleton in Hin as ->. by right.
  - destruct w; simpl; [by left|]. intros Hx. left. apply elem_of_cons; by right.
Qed.

(** A deque within its capacity stays within it. *)
Lemma iterate_queue_length maxw key w :
  0 <= maxw -> Z.of_nat (length w) <= maxw ->
  Z.of_nat (length (fst (iterate_queue maxw key w))) <= maxw.
Proof.
  intros Hm Hlen. destruct key as [k|].
  - destruct (decide (k ∈ w)).
    + by rewrite iterate_queue_resident.
    + destruct (decide (Z.of_nat (length w) = maxw)).
      * rewrite iterate_queue_full by done.
        destruct w; simpl in *; [lia | rewrite length_app; simpl; lia].
      * rewrite iterate_queue_room by (done || lia). simpl.
        rewrite length_app. simpl. lia.
  - by rewrite iterate_queue_unkeyed.
Qed.

(** A deque without a repeated key stays so. *)
Lemma iterate_queue_NoDup maxw key w :
  NoDup w -> NoDup (fst (iterate_queue maxw key w)).
Proof.
  intros Hnd. unfold iterate_queue, bind, ret.
  assert (Htl : forall l : list Key, NoDup l -> NoDup (tail l)).
  { intros [|? ?]; simpl; [done|]. by intros [_ ?]%NoDup_cons. }
  assert (Hsnoc : forall k, k ∉ w -> NoDup (w ++ [k])).
  { intros k Hk. apply NoDup_app. split; [done|]. split; [|apply NoDup_singleton].
    by intros x Hx ->%list_elem_of_singleton. }
  destruct key as [k|]; [destruct (decide (k ∈ w)) as [Hk|Hk]|]; simpl;
    case_decide; simpl; try done.
  - apply Htl in Hnd. by destruct w.
  - specialize (Hsnoc k Hk). apply Htl in Hsnoc. by destruct (w ++ [k]).
  - by apply Hsnoc.
  - apply Htl in Hnd. by destruct w.
Qed.

End IterateQueue.

(** ** One submission *)

Section Submission.

Context {Key : Type} `{!EqDecision Key} {Task Sink : Type}.
Implicit Types (p : pool Key Task Sink) (k : Key) (t : Task).

Lemma py_index_nat len (i : nat) :
  (i < len)%nat -> py_index len (Z.of_nat i) = Some i.
Proof.
  intros Hi. unfold py_index. rewrite decide_True by lia.
  by rewrite Nat2Z.id.
Qed.

Lemma watching_at_nat p (i : nat) w :
  watching_list p !! i = Some w ->
  watching_at (Z.of_nat i) p = (p, Returns (i, w)).
Proof.
  intros Hw. unfold watching_at.
  rewrite py_index_nat by (by eapply lookup_lt_Some). by rewrite Hw.
Qed.

Lemma queue_at_nat p (i : nat) q :
  queue_list p !! i = Some q ->
  queue_at (Z.of_nat i) p = (p, Returns (i, q)).
Proof.
  intros Hq. unfold queue_at.
  rewrite py_index_nat by (by eapply lookup_lt_Some). by rewrite Hq.
Qed.

(** The scan only reads the deques, and stops at the first one that
    holds the key: whatever the pool, it ends with no worker found and
    the pool untouched, with a worker found and the cursor on it, or with
    an index out of range. *)
Lemma scan_workers_ends k ids p :
  scan_workers k ids None p = (p, Returns None) \/
  (exists i, i ∈ ids /\
     scan_workers k ids None p = (set_current_id i p, Returns (Some i))) \/
  scan_workers k ids None p = (p, Raises IndexError).
Proof.
  induction ids as [|i ids IH]; simpl; [by left|].
  unfold bind, watching_at.
  destruct (py_index _ i) as [n|]; [|right; right; done].
  destruct (watching_list p !! n) as [w|]; [|right; right; done].
  simpl. case_decide.
  - right; left. exists i. split; [apply elem_of_cons; by left | done].
  - destruct IH as [IH|[(j & Hj & IH)|IH]]; rewrite IH.
    + by left.
    + right; left. exists j. split; [apply elem_of_cons; by right | done].
    + right; right; done.
Qed.

(** On the positions [a, a + n) of a list of deques that has them all,
    the scan finds the first deque that holds the key, or none. *)
Lemma scan_workers_range k p (n a : nat) :
  (a + n <= length (watching_list p))%nat ->
  (exists (i : nat) w,
      (a <= i < a + n)%nat /\ watching_list p !! i = Some w /\ k ∈ w /\
      (forall (j : nat) w', (a <= j < i)%nat ->
                 watching_list p !! j = Some w' -> k ∉ w') /\
      scan_workers k (seqZ (Z.of_nat a) (Z.of_nat n)) None p
      = (set_current_id (Z.of_nat i) p, Returns (Some (Z.of_nat i)))) \/
  ((forall (j : nat) w', (a <= j < a + n)%nat ->
               watching_list p !! j = Some w' -> k ∉ w') /\
   scan_workers k (seqZ (Z.of_nat a) (Z.of_nat n)) None p = (p, Returns None)).
Proof.
  revert a. induction n as [|n IH]; intros a Hlen.
  - right. split; [intros; lia | done].
  - rewrite seqZ_cons by lia. simpl.
    destruct (lookup_lt_is_Some_2 (watching_list p) a) as [w Hw]; [lia|].
    unfold bind. rewrite (watching_at_nat _ _ _ Hw). simpl.
    replace (Z.succ (Z.of_nat a)) with (Z.of_nat (S a)) by lia.
    replace (Z.pred (Z.of_nat (S n))) with (Z.of_nat n) by lia.
    case_decide as Hk.
    + left. exists a, w. repeat split; try done; try lia.
    + destruct (IH (S a)) as [(i & w' & Hi & Hw' & Hin & Hfirst & Heq)|[Hnone Heq]];
        [lia| |].
      * left. exists i, w'. repeat split; try done; try lia.
        intros j w'' Hj Hw''. destruct (decide (j = a)) as [->|].
        -- by simplify_eq.
        -- apply (Hfirst j w''); [lia | done].
      * right. split; [|done].
        intros j w'' Hj Hw''. destruct (decide (j = a)) as [->|].
        -- by simplify_eq.
        -- apply (Hnone j w''); [lia | done].
Qed.

(** What [submit_id] does to a well-formed pool: it never raises; it
    picks the first worker that holds the key, or else the worker after
    the cursor; it leaves the cursor on that worker, feeds the key to its
    deque and puts the task on its queue. *)
Lemma submit_id_well_formed p key t :
  well_formed p ->
  exists (i : nat) w q,
    watching_list p !! i = Some w /\ queue_list p !! i = Some q /\
    submit_id key t p =
      (Pool (out_queue p) (max_workers p) (max_watching p) (Z.of_nat i)
            (<[i := put t q]> (queue_list p))
            (<[i := fst (iterate_queue (max_watching p) key w)]> (watching_list p)),
       Returns tt) /\
    match key with
    | Some k =>
        (k ∈ w /\
         forall (j : nat) w', (j < i)%nat -> watching_list p !! j = Some w' -> k ∉ w') \/
        ((forall (j : nat) w', watching_list p !! j = Some w' -> k ∉ w') /\
         Z.of_nat i = (current_id p + 1) mod max_workers p)
    | None => Z.of_nat i = (current_id p + 1) mod max_workers p
    end.
Proof.
  intros (Hn & Hm & Hq & Hw).
  (* the steps after the worker is chosen *)
  assert (Hrest : forall (i : nat) c,
    (i < Z.to_nat (max_workers p))%nat ->
    exists w q,
      watching_list p !! i = Some w /\ queue_list p !! i = Some q /\
      (worker <~ queue_at (Z.of_nat i) ;;
       watching <~ watching_at (Z.of_nat i) ;;
       iterate_queue_at (fst watching) (snd watching) key ;;;
       put_at (fst worker) (snd worker) t) (set_current_id c p)
      = (Pool (out_queue p) (max_workers p) (max_watching p) c
            (<[i := put t q]> (queue_list p))
            (<[i := fst (iterate_queue (max_watching p) key w)]> (watching_list p)),
         Returns tt)).
  { intros i c Hi.
    destruct (lookup_lt_is_Some_2 (watching_list p) i) as [w Hwi]; [lia|].
    destruct (lookup_lt_is_Some_2 (queue_list p) i) as [q Hqi]; [lia|].
    exists w, q. split; [done|]. split; [done|].
    unfold bind.
    rewrite (queue_at_nat (set_current_id c p) i q) by done.
    rewrite (watching_at_nat (set_current_id c p) i w) by done.
    unfold iterate_queue_at. simpl.
    pose proof (iterate_queue_returns (max_watching p) key w Hm) as Hret.
    destruct (iterate_queue (max_watching p) key w) as [w' o]. simpl in *.
    by subst o. }
  assert (Hround : exists i : nat,
    (i < Z.to_nat (max_workers p))%nat /\
    Z.of_nat i = (current_id p + 1) mod max_workers p).
  { exists (Z.to_nat ((current_id p + 1) mod max_workers p)).
    pose proof (Z.mod_pos_bound (current_id p + 1) (max_workers p)). lia. }
  assert (Hchoose : forall i : nat,
    Z.of_nat i = (current_id p + 1) mod max_workers p ->
    (i0 <~ choose_worker ;; modify (set_current_id i0) ;;; ret i0) p
    = (set_current_id (Z.of_nat i) p, Returns (Z.of_nat i))).
  { intros i Hi. unfold bind, choose_worker, py_mod.
    rewrite decide_False by lia. simpl. by rewrite Hi. }
  unfold submit_id. destruct key as [k|].
  - destruct (scan_workers_range k p (Z.to_nat (max_workers p)) 0)
      as [(i & w & Hi & Hwi & Hin & Hfirst & Hscan)|[Hnone Hscan]]; [lia| |].
    + destruct (Hrest i (Z.of_nat i)) as (w' & q & Hwi' & Hqi & Heq); [lia|].
      simplify_eq. exists i, w, q. split; [done|]. split; [done|].
      split; [|left; split; [done|]; intros j w' ? ?; apply (Hfirst j w'); [lia|done]].
      change (Z.of_nat 0) with 0 in Hscan. rewrite Z2Nat.id in Hscan by lia.
      erewrite bind_returns by exact Hscan.
      erewrite bind_returns by reflexivity. exact Heq.
    + destruct Hround as (i & Hi & Hmod).
      destruct (Hrest i (Z.of_nat i)) as (w & q & Hwi & Hqi & Heq); [lia|].
      exists i, w, q. split; [done|]. split; [done|].
      split; [|right; split; [|done]; intros j w' Hj; apply (Hnone j w'); [|done];
               apply lookup_lt_Some in Hj; lia].
      change (Z.of_nat 0) with 0 in Hscan. rewrite Z2Nat.id in Hscan by lia.
      erewrite bind_returns by exact Hscan.
      erewrite bind_returns by exact (Hchoose i Hmod). exact Heq.
  - destruct Hround as (i & Hi & Hmod).
    destruct (Hrest i (Z.of_nat i)) as (w & q & Hwi & Hqi & Heq); [lia|].
    exists i, w, q. split; [done|]. split; [done|]. split; [|done].
    erewrite bind_returns by reflexivity.
    erewrite bind_returns by exact (Hchoose i Hmod). exact Heq.
Qed.

End Submission.

(** ** The check for a key held by two workers *)

Section TwoOwners.

Context {Key : Type} `{!EqDecision Key} {Task Sink : Type}.
Implicit Types (p : pool Key Task Sink) (k : Key) (t : Task).

(** The steps of [submit_id] after the scan raise nothing but
    [ZeroDivisionError] and [IndexError]. *)
Lemma after_scan_no_key_error p key t (found : option Z) :
  snd ((worker_id <~ match found with
                     | Some i => ret i
                     | None => i <~ choose_worker ;;
                               modify (set_current_id i) ;;; ret i
                     end ;;
        worker <~ queue_at worker_id ;;
        watching <~ watching_at worker_id ;;
        iterate_queue_at (fst watching) (snd watching) key ;;;
        put_at (fst worker) (snd worker) t) p)
  <> Raises ValueError_key_in_two_workers.
Proof.
  unfold bind, choose_worker, py_mod, queue_at, watching_at,
    iterate_queue_at, iterate_queue, put_at, modify, ret, raise, bind.
  repeat (case_match; simplify_eq; simpl in *; try done).
Qed.

(** Whatever the pool and the key, [submit_id] does not raise the error
    for a key held by two workers: the loop leaves at the first deque
    that holds the key, with [worker_id] still unset when it tests it. *)
Lemma submit_id_no_key_error p key t :
  snd (submit_id key t p) <> Raises ValueError_key_in_two_workers.
Proof.
  unfold submit_id. destruct key as [k|].
  - destruct (scan_workers_ends k (py_range (max_workers p)) p)
      as [H|[(i & _ & H)|H]].
    + erewrite bind_returns by exact H. apply after_scan_no_key_error.
    + erewrite bind_returns by exact H. apply after_scan_no_key_error.
    + erewrite bind_raises by exact H. done.
  - erewrite bind_returns by reflexivity. apply after_scan_no_key_error.
Qed.

End TwoOwners.

(** C1 (the code does not do this).  The specification: a key found in
    the affinity set of more than one worker makes [submit_id] fail with
    the invariant error.  The code: with key 7 in the deques of both
    workers, [submit_id(7, f)] returns normally and has put the task on the
    queue of worker 0, the first of the two. *)
Theorem key_in_two_workers_not_reported :
  owns two_owners 0 7%nat /\ owns two_owners 1 7%nat /\
  submit_id (Some 7%nat) 42%nat two_owners
  = (Pool None 2 100 0 [Queue [42%nat] 1; new_queue] [[7%nat]; [7%nat]],
     Returns tt).
Proof.
  split; [by exists [7%nat]; split; [|apply list_elem_of_singleton] |].
  split; [by exists [7%nat]; split; [|apply list_elem_of_singleton] |].
  vm_compute. reflexivity.
Qed.

(** ** The invariant of reachable pools *)

Section Invariant.

Context {Key : Type} `{!EqDecision Key} {Task Sink : Type}.
Implicit Types (p : pool Key Task Sink) (k : Key) (t : Task)
  (c : submission Key Task) (cs : list (submission Key Task)).

(** A worker holds a key after a call only if it held it before, or if
    the call carried that key, no worker held it, and the call chose this
    worker. *)
Lemma owns_after p c (a : nat) x :
  well_formed p ->
  owns (after p c) a x ->
  owns p a x \/
  (fst c = Some x /\ (forall j, ~ owns p j x) /\
   Z.of_nat a = current_id (after p c)).
Proof.
  intros Hwf (w' & Hw' & Hx). destruct c as [key t]. unfold after in *.
  destruct (submit_id_well_formed p key t Hwf)
    as (i & w & q & Hwi & Hqi & Heq & Hroute).
  simpl in *. rewrite Heq in *. simpl in *.
  destruct (decide (a = i)) as [->|Hne].
  - rewrite list_lookup_insert_eq in Hw' by (by eapply lookup_lt_Some).
    simplify_eq.
    apply iterate_queue_elem in Hx as [Hx|[-> Hx]].
    + left. by exists w.
    + destruct Hroute as [[Hin _]|[Hnone _]]; [done|].
      right. split; [done|]. split; [|done].
      intros j (w' & Hj & Hin). by apply (Hnone j w').
  - rewrite list_lookup_insert_ne in Hw' by done.
    left. by exists w'.
Qed.

Lemma pool_ok_after p c : pool_ok p -> pool_ok (after p c).
Proof.
  intros (Hwf & Huniq & Hcap).
  pose proof Hwf as (Hn & Hm & Hq & Hw).
  split; [|split].
  - destruct c as [key t].
    destruct (submit_id_well_formed p key t Hwf)
      as (i & w & q & Hwi & Hqi & Heq & Hroute).
    unfold after, well_formed. simpl. rewrite Heq. simpl.
    by rewrite !length_insert.
  - intros x a b Ha Hb.
    apply (owns_after _ _ _ _ Hwf) in Ha as [Ha|(_ & Ha & Hai)];
      apply (owns_after _ _ _ _ Hwf) in Hb as [Hb|(_ & Hb & Hbi)].
    + by apply (Huniq x).
    + by destruct (Hb a).
    + by destruct (Ha b).
    + lia.
  - destruct c as [key t].
    destruct (submit_id_well_formed p key t Hwf)
      as (i & w & q & Hwi & Hqi & Heq & Hroute).
    intros a w' Hw'. unfold after in *. simpl in *. rewrite Heq in *. simpl in *.
    destruct (decide (a = i)) as [->|Hne].
    + rewrite list_lookup_insert_eq in Hw' by (by eapply lookup_lt_Some).
      simplify_eq. apply iterate_queue_length; [done|]. by apply (Hcap i).
    + rewrite list_lookup_insert_ne in Hw' by done. by apply (Hcap a).
Qed.

Lemma pool_ok_states_after p cs :
  pool_ok p -> Forall pool_ok (states_after p cs).
Proof.
  revert p. induction cs as [|c cs IH]; intros p Hok; simpl; [constructor|].
  constructor; [by apply pool_ok_after | apply IH; by apply pool_ok_after].
Qed.

Lemma pool_ok_run_all p cs : pool_ok p -> pool_ok (run_all p cs).
Proof.
  revert p. induction cs as [|c cs IH]; intros p Hok; simpl; [done|].
  apply IH. by apply pool_ok_after.
Qed.

(** A fresh pool with at least one worker and a capacity that is not
    negative. *)
Lemma pool_ok_init (oq : option Sink) (workers watching : Z) :
  1 <= workers -> 0 <= watching ->
  pool_ok (init (Key:=Key) (Task:=Task) oq workers watching).
Proof.
  intros Hn Hm. split; [|split].
  - unfold well_formed, init. simpl. by rewrite !length_replicate.
  - intros x a b (wa & Hwa & Hxa) _. simpl in Hwa.
    apply lookup_replicate in Hwa as [-> _]. by apply elem_of_nil in Hxa.
  - intros a w Hw. simpl in *. apply lookup_replicate in Hw as [-> _].
    simpl. lia.
Qed.

(** A pool without queues: every call raises before it reaches a deque. *)
Lemma after_no_queue p c :
  queue_list p = [] ->
  queue_list (after p c) = [] /\
  watching_list (after p c) = watching_list p /\
  max_watching (after p c) = max_watching p.
Proof.
  intros Hq. destruct c as [key t]. unfold after. simpl.
  assert (Hrest : forall (found : option Z) p',
    queue_list p' = [] ->
    let r := (worker_id <~ match found with
                     | Some i => ret i
                     | None => i <~ choose_worker ;;
                               modify (set_current_id i) ;;; ret i
                     end ;;
        worker <~ queue_at worker_id ;;
        watching <~ watching_at worker_id ;;
        iterate_queue_at (fst watching) (snd watching) key ;;;
        put_at (fst worker) (snd worker) t) p' in
    queue_list (fst r) = [] /\ watching_list (fst r) = watching_list p' /\
    max_watching (fst r) = max_watching p').
  { intros found p' Hq'.
    unfold bind, choose_worker, py_mod, queue_at, modify, ret, raise.
    destruct found as [i|]; simpl; rewrite ?Hq'; simpl.
    - unfold py_index. simpl. repeat case_decide; try lia. by simpl.
    - case_decide; simpl; [done|]. rewrite Hq'. simpl.
      unfold py_index. simpl. repeat case_decide; try lia. by simpl. }
  unfold submit_id. destruct key as [k|].
  - destruct (scan_workers_ends k (py_range (max_workers p)) p)
      as [H|[(i & _ & H)|H]].
    + erewrite bind_returns by exact H. by apply Hrest.
    + erewrite bind_returns by exact H. by apply (Hrest _ (set_current_id i p)).
    + erewrite bind_raises by exact H. done.
  - erewrite bind_returns by reflexivity. by apply Hrest.
Qed.

Lemma no_worker_states_after p cs :
  queue_list p = [] -> watching_list p = [] ->
  Forall (fun p' => at_most_one_owner p' /\ within_capacity p')
         (states_after p cs).
Proof.
  revert p. induction cs as [|c cs IH]; intros p Hq Hw; simpl; [constructor|].
  destruct (after_no_queue p c Hq) as (Hq' & Hw' & _). rewrite Hw in Hw'.
  constructor; [|by apply IH].
  split.
  - intros x a b (wa & Hwa & _). by rewrite Hw' in Hwa.
  - intros a w Ha. by rewrite Hw' in Ha.
Qed.

(** C3.  From a fresh pool (any number of workers, any capacity that is
    not negative) and after each call of any sequence of [submit] and
    [submit_id] calls, a key is in the affinity set of at most one worker
    and no affinity set holds more than [max_watching] keys. *)
Theorem reachable_invariant (oq : option Sink) (workers watching : Z) cs :
  0 <= watching ->
  Forall (fun p => at_most_one_owner p /\ within_capacity p)
         (states_after (init oq workers watching) cs).
Proof.
  intros Hm. destruct (decide (1 <= workers)) as [Hn|Hn].
  - eapply Forall_impl; [apply pool_ok_states_after; by apply pool_ok_init|].
    by intros p (_ & ? & ?).
  - apply no_worker_states_after; unfold init; simpl;
      by replace (Z.to_nat workers) with 0%nat by lia.
Qed.

End Invariant.

Lemma reachable_invariant_witness :
  0 <= 2 /\
  Forall (fun p : pool nat nat unit => at_most_one_owner p /\ within_capacity p)
         (states_after (init None 3 2)
            [(Some 5%nat, 10%nat); (None, 11%nat); (Some 6%nat, 12%nat);
             (Some 5%nat, 13%nat); (Some 7%nat, 14%nat)]).
Proof.
  split; [lia | apply reachable_invariant; lia].
Defined.

(** ** What a submission leaves unchanged *)

Section Frame.

Context {Key : Type} `{!EqDecision Key} {Task Sink : Type}.
Implicit Types (p : pool Key Task Sink) (k : Key) (t : Task).

(** The only worker that holds the key is the first one that does. *)
Lemma only_owner_is_first p (i : nat) k w :
  at_most_one_owner p -> watching_list p !! i = Some w -> k ∈ w ->
  forall (i' : nat) w',
    watching_list p !! i' = Some w' ->
    (k ∈ w' /\
     forall (j : nat) w'', (j < i')%nat -> watching_list p !! j = Some w'' -> k ∉ w'') \/
    ((forall (j : nat) w'', watching_list p !! j = Some w'' -> k ∉ w'') /\
     Z.of_nat i' = (current_id p + 1) mod max_workers p) ->
    i' = i /\ w' = w.
Proof.
  intros Huniq Hw Hk i' w' Hw' [[Hk' _]|[Hnone _]].
  - assert (i' = i) as -> by (apply (Huniq k); [by exists w' | by exists w]).
    by simplify_eq.
  - by destruct (Hnone i w).
Qed.

(** C2, as the code has it.  In a pool that satisfies the invariant of
    reachable pools, [submit_id] with a key that worker [i] holds (and so
    no other worker) returns normally, puts the task on the queue of
    worker [i] and sets the cursor [current_id] to [i]; the affinity sets,
    the other queues and the other fields are unchanged. *)
Theorem resident_key_routes_to_owner p (i : nat) k t w q :
  pool_ok p ->
  watching_list p !! i = Some w -> k ∈ w ->
  queue_list p !! i = Some q ->
  submit_id (Some k) t p =
    (Pool (out_queue p) (max_workers p) (max_watching p) (Z.of_nat i)
          (<[i := put t q]> (queue_list p)) (watching_list p),
     Returns tt).
Proof.
  intros (Hwf & Huniq & Hcap) Hw Hk Hq.
  destruct (submit_id_well_formed p (Some k) t Hwf)
    as (i' & w' & q' & Hw' & Hq' & Heq & Hroute).
  destruct (only_owner_is_first p i k w Huniq Hw Hk i' w' Hw' Hroute) as [-> ->].
  simplify_eq. rewrite Heq.
  rewrite iterate_queue_resident by (done || by apply (Hcap i)).
  simpl. by rewrite (list_insert_id (watching_list p) i w).
Qed.

(** What [submit] does to the deques of any pool, well formed or not:
    it leaves them as they are, or drops the leftmost key of one deque
    that was over the capacity. *)
Lemma submit_watching_list p t :
  watching_list (fst (submit t p)) = watching_list p \/
  exists (n : nat) x w,
    watching_list p !! n = Some (x :: w) /\
    max_watching p < Z.of_nat (length (x :: w)) /\
    watching_list (fst (submit t p)) = <[n := w]> (watching_list p).
Proof.
  unfold submit, submit_id.
  erewrite bind_returns by reflexivity.
  unfold bind, choose_worker, py_mod, queue_at, watching_at, iterate_queue_at,
    iterate_queue, put_at, modify, ret, raise, bind.
  case_decide; simpl; [by left|].
  destruct (py_index (length (queue_list p)) _) as [m|]; simpl; [|by left].
  destruct (queue_list p !! m) as [q|]; simpl; [|by left].
  destruct (py_index (length (watching_list p)) _) as [n|]; simpl; [|by left].
  destruct (watching_list p !! n) as [w|] eqn:Hw; simpl; [|by left].
  case_decide as Hlen; simpl.
  - destruct w as [|x w]; simpl.
    + left. rewrite list_insert_id by done; done.
    + right. by exists n, x, w.
  - left. rewrite list_insert_id by done; done.
Qed.

(** C10.  [submit] never adds a key to an affinity set: whatever the
    pool, a key a worker holds after the call it held before.  When the
    affinity sets are within the capacity (as in every reachable pool),
    they are all unchanged; and in a pool that satisfies the invariant the
    call returns normally and changes only the cursor, which moves to the
    next worker, and the queue of that worker, which gains the task. *)
Theorem submit_keeps_affinity_sets p t :
  (forall i k, owns (fst (submit t p)) i k -> owns p i k) /\
  (within_capacity p -> watching_list (fst (submit t p)) = watching_list p) /\
  (pool_ok p ->
   exists (i : nat) q,
     Z.of_nat i = (current_id p + 1) mod max_workers p /\
     queue_list p !! i = Some q /\
     submit t p =
       (Pool (out_queue p) (max_workers p) (max_watching p) (Z.of_nat i)
             (<[i := put t q]> (queue_list p)) (watching_list p),
        Returns tt)).
Proof.
  split; [|split].
  - intros i k (w' & Hw' & Hk).
    destruct (submit_watching_list p t) as [Heq|(n & x & w & Hn & _ & Heq)];
      rewrite Heq in Hw'; [by exists w'|].
    destruct (decide (i = n)) as [->|Hne].
    + rewrite list_lookup_insert_eq in Hw' by (by eapply lookup_lt_Some).
      simplify_eq. exists (x :: w'). split; [done|]. apply elem_of_cons. by right.
    + rewrite list_lookup_insert_ne in Hw' by done. by exists w'.
  - intros Hcap.
    destruct (submit_watching_list p t) as [Heq|(n & x & w & Hn & Hlen & _)];
      [done|].
    specialize (Hcap n _ Hn). lia.
  - intros (Hwf & Huniq & Hcap).
    destruct (submit_id_well_formed p None t Hwf)
      as (i & w & q & Hw & Hq & Heq & Hroute).
    exists i, q. split; [done|]. split; [done|].
    unfold submit. rewrite Heq.
    rewrite iterate_queue_unkeyed by (by apply (Hcap i)).
    simpl. by rewrite (list_insert_id (watching_list p) i w).
Qed.

End Frame.

Lemma pool_ok_key_on_worker_1 : pool_ok key_on_worker_1.
Proof.
  split; [|split].
  - unfold well_formed; simpl; lia.
  - intros k [|[|a]] [|[|b]] (wa & Hwa & Hka) (wb & Hwb & Hkb);
      simpl in *; simplify_eq; try done; by apply elem_of_nil in Hka || by apply elem_of_nil in Hkb.
  - intros [|[|a]] w Hw; simpl in *; simplify_eq; simpl; lia.
Qed.

Lemma resident_key_routes_to_owner_witness :
  submit_id (Some 7%nat) 42%nat key_on_worker_1 =
    (Pool None 2 100 1 [new_queue; Queue [42%nat] 1] [[]; [7%nat]], Returns tt).
Proof.
  apply (resident_key_routes_to_owner key_on_worker_1 1 7%nat 42%nat
           [7%nat] new_queue pool_ok_key_on_worker_1).
  - reflexivity.
  - apply list_elem_of_singleton. reflexivity.
  - reflexivity.
Defined.

(** C2 as the specification states it fails: the pool satisfies the
    invariant, key 7 is held by worker 1 and by no other, and
    [submit_id(7, f)] moves the cursor, from 0 to 1. *)
Lemma resident_key_moves_cursor :
  pool_ok key_on_worker_1 /\
  owns key_on_worker_1 1 7%nat /\
  (forall j, owns key_on_worker_1 j 7%nat -> j = 1%nat) /\
  current_id key_on_worker_1 = 0 /\
  current_id (fst (submit_id (Some 7%nat) 42%nat key_on_worker_1)) = 1 /\
  current_id (fst (submit_id (Some 7%nat) 42%nat key_on_worker_1))
  <> current_id key_on_worker_1.
Proof.
  split; [apply pool_ok_key_on_worker_1|].
  assert (Hown : owns key_on_worker_1 1 7%nat).
  { exists [7%nat]. split; [done|]. by apply list_elem_of_singleton. }
  split; [done|]. split; [|done].
  intros j Hj. by apply (proj1 (proj2 pool_ok_key_on_worker_1) 7%nat).
Qed.

Lemma submit_keeps_affinity_sets_witness :
  watching_list (fst (submit 42%nat key_on_worker_1))
  = watching_list key_on_worker_1.
Proof.
  apply (submit_keeps_affinity_sets key_on_worker_1 42%nat).
  apply pool_ok_key_on_worker_1.
Defined.

(** ** Eviction from an affinity set *)

Section Eviction.

Context {Key : Type} `{!EqDecision Key} {Task Sink : Type}.
Implicit Types (p : pool Key Task Sink) (k : Key) (w ks : list Key) (maxw : Z).

Lemma insert_keys_app maxw ks1 ks2 w :
  insert_keys maxw (ks1 ++ ks2) w = insert_keys maxw ks2 (insert_keys maxw ks1 w).
Proof. revert w. induction ks1 as [|k ks1 IH]; intros w; simpl; [done | apply IH]. Qed.

(** While there is room, new keys line up behind the old ones. *)
Lemma insert_keys_room maxw ks w :
  NoDup (w ++ ks) -> Z.of_nat (length w + length ks) <= maxw ->
  insert_keys maxw ks w = w ++ ks.
Proof.
  revert w. induction ks as [|k ks IH]; intros w Hnd Hlen; simpl.
  - by rewrite app_nil_r.
  - simpl in Hlen.
    assert (Hk : k ∉ w).
    { apply NoDup_app in Hnd as (_ & Hnd & _). intros Hin.
      apply (Hnd k Hin). apply elem_of_cons. by left. }
    rewrite iterate_queue_room by (done || lia). simpl.
    rewrite IH.
    + by rewrite <- app_assoc.
    + by rewrite <- app_assoc.
    + rewrite length_app. simpl. lia.
Qed.

(** With one worker, every call goes to worker 0. *)
Lemma one_worker_after p w c :
  pool_ok p -> max_workers p = 1 -> watching_list p = [w] ->
  watching_list (after p c) = [fst (iterate_queue (max_watching p) (fst c) w)] /\
  max_workers (after p c) = 1 /\ max_watching (after p c) = max_watching p.
Proof.
  intros (Hwf & _) Hn Hw. destruct c as [key t]. unfold after. simpl.
  destruct (submit_id_well_formed p key t Hwf)
    as (i & w' & q & Hw' & Hq & Heq & _).
  rewrite Heq. simpl.
  assert (i = 0%nat) as ->.
  { apply lookup_lt_Some in Hw'. rewrite Hw in Hw'. simpl in Hw'. lia. }
  rewrite Hw in *. simpl in Hw'. by simplify_eq.
Qed.

Lemma one_worker_run_all p w (cs : list (submission Key Task)) :
  pool_ok p -> max_workers p = 1 -> watching_list p = [w] ->
  (forall c, c ∈ cs -> is_Some (fst c)) ->
  watching_list (run_all p cs)
  = [insert_keys (max_watching p) (omap fst cs) w].
Proof.
  revert p w. induction cs as [|c cs IH]; intros p w Hok Hn Hw Hkeys; simpl; [done|].
  destruct (one_worker_after p w c Hok Hn Hw) as (Hw' & Hn' & Hm').
  destruct (Hkeys c) as [k Hk]; [apply elem_of_cons; by left|].
  rewrite Hk in *. simpl.
  rewrite (IH (after p c) _ (pool_ok_after p c Hok) Hn' Hw').
  - by rewrite Hm'.
  - intros c' Hc'. apply Hkeys. apply elem_of_cons. by right.
Qed.

(** C4.  With capacity [maxw]: feeding [maxw + 1] distinct keys to an
    empty affinity set leaves all of them but the first; so does
    submitting them to a fresh pool of one worker.  A key that is already
    in the set leaves the set as it is, order included.  And a call
    changes a set within its capacity in one of two ways only: it appends
    the new key, or it appends the new key and drops the leftmost one. *)
Theorem eviction_is_fifo maxw :
  0 <= maxw ->
  (forall ks, NoDup ks -> Z.of_nat (length ks) = maxw + 1 ->
     insert_keys maxw ks [] = tail ks) /\
  (forall ks (oq : option Sink) (t : Task),
     NoDup ks -> Z.of_nat (length ks) = maxw + 1 ->
     watching_list (run_all (init oq 1 maxw) ((fun k => (Some k, t)) <$> ks))
     = [tail ks]) /\
  (forall w k, k ∈ w -> Z.of_nat (length w) <= maxw ->
     iterate_queue maxw (Some k) w = (w, Returns tt)) /\
  (forall w key, Z.of_nat (length w) <= maxw ->
     iterate_queue maxw key w = (w, Returns tt) \/
     exists k, key = Some k /\ (k ∉ w) /\
       (iterate_queue maxw key w = (w ++ [k], Returns tt) \/
        (Z.of_nat (length w) = maxw /\
         iterate_queue maxw key w = (tail (w ++ [k]), Returns tt)))).
Proof.
  intros Hm.
  assert (Hfirst : forall ks, NoDup ks -> Z.of_nat (length ks) = maxw + 1 ->
            insert_keys maxw ks [] = tail ks).
  { intros ks Hnd Hlen.
    destruct ks as [|k0 ks _] using rev_ind; [simpl in Hlen; lia|].
    rewrite length_app in Hlen. simpl in Hlen.
    rewrite insert_keys_app. simpl.
    apply NoDup_app in Hnd as (Hnd & Hk0 & _).
    rewrite insert_keys_room by (done || (simpl; lia)). simpl.
    rewrite iterate_queue_full; [done | | lia].
    intros Hin. apply (Hk0 k0 Hin). by apply list_elem_of_singleton. }
  split; [done|]. split; [|split].
  - intros ks oq t Hnd Hlen.
    rewrite (one_worker_run_all _ []); try done.
    + assert (omap fst ((fun k => (Some k, t)) <$> ks) = ks) as ->.
      { clear. induction ks as [|k ks IH]; [done | simpl; f_equal; exact IH]. }
      simpl. by rewrite (Hfirst ks Hnd Hlen).
    + apply pool_ok_init; lia.
    + intros c (k & -> & _)%list_elem_of_fmap. by exists k.
  - intros w k Hk Hlen. by apply iterate_queue_resident.
  - intros w [k|] Hlen.
    + destruct (decide (k ∈ w)) as [Hk|Hk].
      * left. by apply iterate_queue_resident.
      * right. exists k. split; [done|]. split; [done|].
        destruct (decide (Z.of_nat (length w) = maxw)) as [Hfull|Hroom].
        -- right. split; [done|]. by apply iterate_queue_full.
        -- left. apply iterate_queue_room; [done | lia].
    + left. by apply iterate_queue_unkeyed.
Qed.

End Eviction.

Lemma eviction_is_fifo_witness :
  0 <= 2 /\
  insert_keys 2 [1%nat; 2%nat; 3%nat] [] = [2%nat; 3%nat] /\
  iterate_queue 2 (Some 1%nat) [1%nat; 2%nat] = ([1%nat; 2%nat], Returns tt).
Proof.
  split; [lia|].
  destruct (eviction_is_fifo (Key:=nat) (Task:=nat) (Sink:=unit) 2 ltac:(lia))
    as (Hfirst & _ & Hkeep & _).
  split.
  - apply (Hfirst [1%nat; 2%nat; 3%nat]).
    + repeat constructor; rewrite ?elem_of_cons, ?elem_of_nil; lia.
    + reflexivity.
  - apply Hkeep.
    + apply elem_of_cons. left. reflexivity.
    + simpl. lia.
Defined.

(** ** Round-robin *)

Section RoundRobin.

Context {Task : Type}.
Implicit Types (n start i : Z) (ts : list Task).

Lemma mod_pred n x :
  0 < n ->
  (x - 1) mod n = if decide (x mod n = 0) then n - 1 else x mod n - 1.
Proof.
  intros Hn. pose proof (Z.mod_pos_bound x n Hn) as Hr.
  pose proof (Z.div_mod x n ltac:(lia)) as Hx.
  case_decide as H0; symmetry.
  - apply (Z.mod_unique _ _ (x / n - 1)); [left; lia | lia].
  - apply (Z.mod_unique _ _ (x / n)); [left; lia | lia].
Qed.

Lemma mod_is_target n s i :
  0 < n -> 0 <= i < n -> (s mod n = i <-> (i - s) mod n = 0).
Proof.
  intros Hn Hi. split; intros H.
  - symmetry. apply (Z.mod_unique _ _ (- (s / n))); [left; lia|].
    pose proof (Z.div_mod s n ltac:(lia)). lia.
  - symmetry. apply (Z.mod_unique _ _ (- ((i - s) / n))); [left; lia|].
    pose proof (Z.div_mod (i - s) n ltac:(lia)). lia.
Qed.

Lemma round_robin_share_app n start i ts1 ts2 :
  round_robin_share n start i (ts1 ++ ts2)
  = round_robin_share n start i ts1
    ++ round_robin_share n (start + Z.of_nat (length ts1)) i ts2.
Proof.
  revert start. induction ts1 as [|t ts1 IH]; intros start; simpl.
  - by rewrite Z.add_0_r.
  - rewrite IH, <- app_assoc. do 3 f_equal. lia.
Qed.

(** The share only depends on the starting worker. *)
Lemma round_robin_share_mod n start start' i ts :
  start mod n = start' mod n ->
  round_robin_share n start i ts = round_robin_share n start' i ts.
Proof.
  revert start start'. induction ts as [|t ts IH]; intros start start' H; simpl; [done|].
  rewrite H. f_equal. apply IH.
  by rewrite (Zplus_mod start), (Zplus_mod start'), H.
Qed.

(** Among at most [n] tasks in a row, worker [i] gets one when its turn
    comes before the tasks run out, and none otherwise. *)
Lemma round_robin_share_short n start i ts :
  0 < n -> 0 <= i < n -> Z.of_nat (length ts) <= n ->
  length (round_robin_share n start i ts)
  = if decide ((i - start) mod n < Z.of_nat (length ts)) then 1%nat else 0%nat.
Proof.
  intros Hn Hi. revert start. induction ts as [|t ts IH]; intros start Hlen; simpl.
  - pose proof (Z.mod_pos_bound (i - start) n Hn). by rewrite decide_False by lia.
  - simpl in Hlen. rewrite length_app, IH by lia.
    replace (i - (start + 1)) with (i - start - 1) by lia.
    rewrite (mod_pred n (i - start) Hn).
    pose proof (Z.mod_pos_bound (i - start) n Hn).
    pose proof (mod_is_target n start i Hn Hi) as Htarget.
    destruct (decide (start mod n = i)) as [Heq|Hne]; simpl.
    + apply Htarget in Heq. repeat case_decide; lia.
    + assert ((i - start) mod n <> 0) by (intros H0; by apply Htarget in H0).
      repeat case_decide; lia.
Qed.

(** Of [c * n] tasks, each of the [n] workers gets [c]. *)
Lemma round_robin_share_length n start i ts (c : nat) :
  0 < n -> 0 <= i < n -> Z.of_nat (length ts) = Z.of_nat c * n ->
  length (round_robin_share n start i ts) = c.
Proof.
  intros Hn Hi. revert start ts. induction c as [|c IH]; intros start ts Hlen.
  - destruct ts; [done | simpl in Hlen; lia].
  - rewrite <- (take_drop (Z.to_nat n) ts).
    assert (Htake : length (take (Z.to_nat n) ts) = Z.to_nat n)
      by (rewrite length_take; lia).
    rewrite round_robin_share_app, length_app.
    rewrite round_robin_share_short by (done || lia).
    rewrite decide_True
      by (pose proof (Z.mod_pos_bound (i - start) n Hn); lia).
    rewrite IH; [done|]. rewrite length_drop. lia.
Qed.

End RoundRobin.

Section Fairness.

Context {Key : Type} `{!EqDecision Key} {Task Sink : Type}.
Implicit Types (p : pool Key Task Sink) (t : Task) (ts : list Task).

Lemma well_formed_after p c : well_formed p -> well_formed (after p c).
Proof.
  intros Hwf. pose proof Hwf as (Hn & Hm & Hq & Hw). destruct c as [key t].
  destruct (submit_id_well_formed p key t Hwf) as (i & w & q & _ & _ & Heq & _).
  unfold after, well_formed. simpl. rewrite Heq. simpl.
  by rewrite !length_insert.
Qed.

(** After the calls [submit(t)] for the tasks [ts]: the cursor has moved
    on by their number, and the queue of each worker has gained its share,
    in order. *)
Lemma unkeyed_run p ts :
  well_formed p ->
  (ts <> [] ->
   current_id (run_all p (unkeyed ts))
   = (current_id p + Z.of_nat (length ts)) mod max_workers p) /\
  forall (i : nat) q,
    queue_list p !! i = Some q ->
    queue_list (run_all p (unkeyed ts)) !! i
    = Some (Queue
        (items q ++ round_robin_share (max_workers p) (current_id p + 1) (Z.of_nat i) ts)
        (unfinished_tasks q
         + length (round_robin_share (max_workers p) (current_id p + 1) (Z.of_nat i) ts))).
Proof.
  revert p. induction ts as [|t ts IH]; intros p Hwf.
  - split; [done|]. intros i [its n] Hq. simpl.
    by rewrite app_nil_r, Nat.add_0_r.
  - pose proof Hwf as (Hn & _).
    destruct (submit_id_well_formed p None t Hwf)
      as (i0 & w0 & q0 & Hw0 & Hq0 & Heq & Hi0).
    pose proof (well_formed_after p (None, t) Hwf) as Hwf1.
    destruct (IH (after p (None, t)) Hwf1) as [IHcur IHq].
    assert (Hp1 : after p (None, t) =
      Pool (out_queue p) (max_workers p) (max_watching p) (Z.of_nat i0)
           (<[i0 := put t q0]> (queue_list p))
           (<[i0 := fst (iterate_queue (max_watching p) None w0)]> (watching_list p))).
    { unfold after. simpl. by rewrite Heq. }
    assert (Hstart : (Z.of_nat i0 + 1) mod max_workers p
                     = (current_id p + 1 + 1) mod max_workers p).
    { rewrite Hi0. by rewrite Zplus_mod_idemp_l. }
    assert (Hcur1 : current_id (after p (None, t)) = Z.of_nat i0)
      by (by rewrite Hp1).
    assert (Hn1 : max_workers (after p (None, t)) = max_workers p)
      by (by rewrite Hp1).
    assert (Hq1 : queue_list (after p (None, t)) = <[i0 := put t q0]> (queue_list p))
      by (by rewrite Hp1).
    rewrite Hcur1, Hn1 in IHcur. clear Hp1.
    split.
    + intros _.
      change (run_all p (unkeyed (t :: ts)))
        with (run_all (after p (None, t)) (unkeyed ts)).
      destruct ts as [|t' ts'].
      * simpl. rewrite Hcur1, Hi0. f_equal.
      * rewrite IHcur by done.
        rewrite Hi0, Zplus_mod_idemp_l. f_equal. simpl length. lia.
    + intros i q Hq.
      change (run_all p (unkeyed (t :: ts)))
        with (run_all (after p (None, t)) (unkeyed ts)).
      simpl round_robin_share.
      destruct (decide (i = i0)) as [->|Hne].
      * assert (q = q0) as -> by congruence.
        rewrite (IHq i0 (put t q0))
          by (rewrite Hq1; apply list_lookup_insert_eq; by eapply lookup_lt_Some).
        rewrite Hcur1, Hn1, (round_robin_share_mod _ _ _ _ _ Hstart).
        rewrite decide_True by done. simpl.
        f_equal. f_equal; [by rewrite <- app_assoc | lia].
      * rewrite (IHq i q) by (by rewrite Hq1, list_lookup_insert_ne).
        rewrite Hcur1, Hn1, (round_robin_share_mod _ _ _ _ _ Hstart).
        rewrite decide_False by lia. done.
Qed.

(** C5.  In a well-formed pool of [N] workers, after [K = c * N] calls of
    [submit] in a row: the [j]-th call (from 0) has chosen worker
    [(cursor + 1 + j) mod N], where [cursor] is the cursor before the
    first call; and the queue of each worker has gained exactly [c] tasks,
    those whose turn it was, in the order of the calls. *)
Theorem round_robin_fairness p ts (c : nat) :
  well_formed p ->
  Z.of_nat (length ts) = Z.of_nat c * max_workers p ->
  (forall j : nat, (j < length ts)%nat ->
     current_id (run_all p (unkeyed (take (S j) ts)))
     = (current_id p + 1 + Z.of_nat j) mod max_workers p) /\
  (forall (i : nat) q,
     queue_list p !! i = Some q ->
     exists share,
       share = round_robin_share (max_workers p) (current_id p + 1) (Z.of_nat i) ts /\
       length share = c /\
       queue_list (run_all p (unkeyed ts)) !! i
       = Some (Queue (items q ++ share) (unfinished_tasks q + c))).
Proof.
  intros Hwf Hlen. pose proof Hwf as (Hn & _ & Hql & _). split.
  - intros j Hj.
    destruct (unkeyed_run p (take (S j) ts) Hwf) as [Hcur _].
    rewrite Hcur by (destruct ts; simpl in *; [lia | done]).
    rewrite length_take. f_equal. lia.
  - intros i q Hq. eexists. split; [reflexivity|].
    assert (Hshare :
      length (round_robin_share (max_workers p) (current_id p + 1) (Z.of_nat i) ts) = c).
    { apply round_robin_share_length; [lia | | done].
      apply lookup_lt_Some in Hq. lia. }
    split; [done|].
    destruct (unkeyed_run p ts Hwf) as [_ Hqs].
    by rewrite (Hqs i q Hq), Hshare.
Qed.

End Fairness.

Lemma round_robin_fairness_witness :
  exists share,
    share = round_robin_share 2 (0 + 1) (Z.of_nat 0) [10%nat; 11%nat; 12%nat; 13%nat] /\
    length share = 2%nat /\
    queue_list (run_all (init (Key:=nat) (Sink:=unit) None 2 5)
                  (unkeyed [10%nat; 11%nat; 12%nat; 13%nat])) !! 0%nat
    = Some (Queue ([] ++ share) (0 + 2)).
Proof.
  assert (Hwf : well_formed (init (Key:=nat) (Task:=nat) (Sink:=unit) None 2 5))
    by (unfold well_formed; simpl; lia).
  exact (proj2 (round_robin_fairness (init (Key:=nat) (Sink:=unit) None 2 5)
                  [10%nat; 11%nat; 12%nat; 13%nat] 2 Hwf eq_refl)
               0%nat new_queue eq_refl).
Defined.

(** ** Key affinity *)

Section Affinity.

Context {Key : Type} `{!EqDecision Key} {Task Sink : Type}.
Implicit Types (p : pool Key Task Sink) (k : Key) (t : Task)
  (c : submission Key Task) (cs : list (submission Key Task)).

(** Queues are first in, first out, and a call only adds at the end: the
    queue of a worker gains the tasks of the calls that chose it, in the
    order of the calls. *)
Lemma routed_queue p cs (i : nat) q :
  well_formed p ->
  queue_list p !! i = Some q ->
  queue_list (run_all p cs) !! i
  = Some (Queue (items q ++ routed_to (Z.of_nat i) p cs)
                (unfinished_tasks q + length (routed_to (Z.of_nat i) p cs))).
Proof.
  revert p q. induction cs as [|c cs IH]; intros p q Hwf Hq.
  - simpl. rewrite app_nil_r, Nat.add_0_r. by destruct q.
  - pose proof (well_formed_after p c Hwf) as Hwf1.
    destruct c as [key t].
    destruct (submit_id_well_formed p key t Hwf)
      as (i0 & w0 & q0 & Hw0 & Hq0 & Heq & _).
    assert (Hcur1 : current_id (after p (key, t)) = Z.of_nat i0)
      by (unfold after; simpl; by rewrite Heq).
    assert (Hq1 : queue_list (after p (key, t)) = <[i0 := put t q0]> (queue_list p))
      by (unfold after; simpl; by rewrite Heq).
    change (run_all p ((key, t) :: cs)) with (run_all (after p (key, t)) cs).
    simpl routed_to. rewrite Hcur1.
    destruct (decide (i = i0)) as [->|Hne].
    + assert (q = q0) as -> by congruence.
      rewrite (IH _ (put t q0) Hwf1)
        by (rewrite Hq1; apply list_lookup_insert_eq; by eapply lookup_lt_Some).
      rewrite decide_True by done. simpl.
      f_equal. f_equal; [by rewrite <- app_assoc | lia].
    + rewrite (IH _ q Hwf1) by (by rewrite Hq1, list_lookup_insert_ne).
      rewrite decide_False by lia. done.
Qed.

(** A call with a key that worker [w] holds chooses worker [w]. *)
Lemma resident_key_chooses_owner p k (w : nat) c :
  pool_ok p -> owns p w k -> fst c = Some k ->
  current_id (after p c) = Z.of_nat w.
Proof.
  intros (Hwf & Huniq & _) (ws & Hws & Hk) Hc.
  destruct c as [key t]. simpl in Hc. subst key.
  destruct (submit_id_well_formed p (Some k) t Hwf)
    as (i & w' & q & Hw' & _ & Heq & Hroute).
  destruct (only_owner_is_first p w k ws Huniq Hws Hk i w' Hw' Hroute) as [-> _].
  unfold after. simpl. by rewrite Heq.
Qed.

Lemma resident_at_each_use_app k (w : nat) p cs1 cs2 :
  resident_at_each_use k w p (cs1 ++ cs2) ->
  resident_at_each_use k w (run_all p cs1) cs2.
Proof.
  revert p. induction cs1 as [|c cs1 IH]; intros p H; simpl in *; [done|].
  apply IH. by destruct H.
Qed.

(** The tasks submitted with the key appear, in submission order, among
    the tasks routed to the worker that holds the key. *)
Lemma tasks_of_key_routed p k (w : nat) cs :
  pool_ok p -> resident_at_each_use k w p cs ->
  sublist (tasks_of_key k cs) (routed_to (Z.of_nat w) p cs).
Proof.
  revert p. induction cs as [|c cs IH]; intros p Hok Hres; [constructor|].
  destruct Hres as [Hc Hres].
  specialize (IH (after p c) (pool_ok_after p c Hok) Hres).
  unfold tasks_of_key in *. simpl routed_to.
  destruct (decide (fst c = Some k)) as [Hk|Hk].
  - rewrite filter_cons_True by done.
    rewrite (resident_key_chooses_owner p k w c Hok (Hc Hk) Hk).
    rewrite decide_True by done. simpl. by apply sublist_skip.
  - rewrite filter_cons_False by done.
    case_decide; simpl; [by apply sublist_cons | done].
Qed.

(** C6.  In a pool that satisfies the invariant, let worker [w] be the one
    a first call with key [k] chooses, and let any calls follow, keyed or
    not, such that [k] is in the affinity set of [w] whenever it is used
    again (it has not been evicted in between).  Then every later call
    with key [k] chooses worker [w] too, and the queue of [w] has gained,
    at its end and in the order of the calls, the tasks of the calls that
    chose [w], among them all the tasks submitted with [k], in submission
    order. *)
Theorem same_key_same_worker p k t1 cs (w : nat) :
  pool_ok p ->
  current_id (after p (Some k, t1)) = Z.of_nat w ->
  resident_at_each_use k w (after p (Some k, t1)) cs ->
  (forall pre c post,
     cs = pre ++ c :: post -> fst c = Some k ->
     current_id (run_all p ((Some k, t1) :: pre ++ [c])) = Z.of_nat w) /\
  exists q added,
    queue_list p !! w = Some q /\
    queue_list (run_all p ((Some k, t1) :: cs)) !! w
    = Some (Queue (items q ++ added) (unfinished_tasks q + length added)) /\
    added = routed_to (Z.of_nat w) p ((Some k, t1) :: cs) /\
    sublist (t1 :: tasks_of_key k cs) added.
Proof.
  intros Hok Hw Hres.
  pose proof (pool_ok_after p (Some k, t1) Hok) as Hok1.
  split.
  - intros pre c post -> Hc.
    change (run_all p ((Some k, t1) :: pre ++ [c]))
      with (run_all (after p (Some k, t1)) (pre ++ [c])).
    unfold run_all. rewrite foldl_app. simpl.
    apply resident_at_each_use_app in Hres. destruct Hres as [Hown _].
    apply (resident_key_chooses_owner _ k w c); [|by apply Hown|done].
    by apply pool_ok_run_all.
  - pose proof Hok as ((Hn & _ & Hql & _) & _).
    destruct (lookup_lt_is_Some_2 (queue_list p) w) as [q Hq].
    { destruct (submit_id_well_formed p (Some k) t1 (proj1 Hok))
        as (i & w' & q' & _ & Hq' & Heq & _).
      unfold after in Hw. simpl in Hw. rewrite Heq in Hw. simpl in Hw.
      assert (i = w) as -> by lia. by eapply lookup_lt_Some. }
    exists q, (routed_to (Z.of_nat w) p ((Some k, t1) :: cs)).
    split; [done|]. split; [apply routed_queue; [apply Hok | done]|]. split; [done|].
    simpl routed_to. rewrite decide_True by done. simpl.
    apply sublist_skip. by apply tasks_of_key_routed.
Qed.

End Affinity.

Lemma same_key_same_worker_witness :
  exists q added,
    queue_list (init (Key:=nat) (Task:=nat) (Sink:=unit) None 2 2) !! 1%nat = Some q /\
    queue_list (run_all (init (Key:=nat) (Task:=nat) (Sink:=unit) None 2 2)
                  ((Some 5%nat, 10%nat)
                   :: [(None, 11%nat); (Some 6%nat, 12%nat); (Some 5%nat, 13%nat)]))
      !! 1%nat
    = Some (Queue (items q ++ added) (unfinished_tasks q + length added)) /\
    added = routed_to (Z.of_nat 1) (init (Key:=nat) (Task:=nat) (Sink:=unit) None 2 2)
              ((Some 5%nat, 10%nat)
               :: [(None, 11%nat); (Some 6%nat, 12%nat); (Some 5%nat, 13%nat)]) /\
    sublist (10%nat :: tasks_of_key 5%nat
               [(None, 11%nat); (Some 6%nat, 12%nat); (Some 5%nat, 13%nat)]) added.
Proof.
  refine (proj2 (same_key_same_worker
            (init (Key:=nat) (Task:=nat) (Sink:=unit) None 2 2) 5%nat 10%nat
            [(None, 11%nat); (Some 6%nat, 12%nat); (Some 5%nat, 13%nat)] 1
            _ eq_refl _)).
  - apply pool_ok_init; lia.
  - simpl. repeat split; try (intros H; discriminate H).
    intros _. exists [5%nat; 6%nat].
    split; [vm_compute; reflexivity|]. apply elem_of_cons. left. reflexivity.
Defined.

(** ** A task that raises *)

Section WorkerFailure.

Context {Task Result Exc : Type}.
Variable call : Task -> Result + Exc.
Implicit Types (w : worker Task Result) (t : Task) (e : Exc).

(** The turn of the loop that takes a task that raises: the task has left
    the queue, and that is all. *)
Lemma run_body_raises w t rest e :
  items (wqueue w) = t :: rest -> call t = inr e ->
  run_body call w
  = (Worker (Queue rest (unfinished_tasks (wqueue w))) (wout w),
     Some (Terminated (inl e))).
Proof.
  intros Hitems Hcall. unfold run_body, get. by rewrite Hitems, Hcall.
Qed.

(** C9.  When the worker meets a task whose call raises, after any number
    of tasks that returned, [run] ends there with that exception (given
    enough turns, and whatever further turns are allowed): the results of
    the tasks before it have been forwarded, and nothing for the failing
    one; [task_done] has been signalled for the tasks before it, and not
    for the failing one; and the tasks behind it stay in the queue. *)
Theorem task_exception_ends_worker w oks rs t rest e (n fuel : nat) :
  items (wqueue w) = oks ++ t :: rest ->
  Forall2 (fun t' r => call t' = inl r) oks rs ->
  call t = inr e ->
  unfinished_tasks (wqueue w) = (length oks + n)%nat ->
  run call (length oks + S fuel) w
  = (Worker (Queue rest n) (forwarded rs (wout w)), Terminated (inl e)).
Proof.
  intros Hitems Hoks Hcall. revert w n Hitems.
  induction Hoks as [|t' r oks rs Hr Hoks IH]; intros w n Hitems Hunf.
  - simpl in *. rewrite (run_body_raises w t rest e Hitems Hcall).
    rewrite Hunf. f_equal. f_equal.
    destruct (wout w) as [[its m]|]; simpl; [|done].
    by rewrite app_nil_r, Nat.add_0_r.
  - simpl in Hitems, Hunf. simpl.
    unfold run_body, get, task_done. rewrite Hitems, Hr. simpl. rewrite Hunf.
    rewrite (IH _ n); simpl; [|done|done].
    f_equal. f_equal.
    destruct (wout w) as [[its m]|]; simpl; [|done].
    rewrite <- app_assoc. simpl. do 2 f_equal. lia.
Qed.

End WorkerFailure.

Lemma task_exception_ends_worker_witness :
  run (fun t : nat => if decide (t = 0%nat) then inr tt else inl (t + 1)%nat)
      (length [3%nat] + S 5)
      (Worker (Queue [3%nat; 0%nat; 8%nat] 4) (Some new_queue))
  = (Worker (Queue [8%nat] 3) (forwarded [4%nat] (Some new_queue)),
     Terminated (inl tt)).
Proof.
  apply (task_exception_ends_worker
           (fun t : nat => if decide (t = 0%nat) then inr tt else inl (t + 1)%nat)
           (Worker (Queue [3%nat; 0%nat; 8%nat] 4) (Some new_queue))
           [3%nat] [4%nat] 0%nat [8%nat] tt 3 5).
  - reflexivity.
  - repeat constructor.
  - reflexivity.
  - reflexivity.
Defined.

(** ** The bridge *)

Section BridgeFacts.

Context {Args Val Exc : Type}.
Variable is_Exception : Exc -> bool.
Variable stops_loop : Exc -> bool.
Implicit Types (w : world Args Val Exc) (self : AsyncToSync Args Val Exc)
  (co : coroutine Args Val Exc) (fs : list (cell Val Exc))
  (lp : loop Args Val Exc) (ls : list (loop Args Val Exc))
  (cos : list (coroutine Args Val Exc)).

(** C7.  Called in a thread whose current event loop is running,
    [AsyncToSync.__call__] raises the [RuntimeError] at once: the call
    ends (it does not wait), and the world is as it was, with no new cell,
    no new loop and nothing handed to any loop. *)
Theorem call_in_running_loop_raises self args w l :
  current_loop w = Some l -> loop_running w l = true ->
  AsyncToSync_call is_Exception stops_loop self args w
  = (w, Error (Builtin RuntimeError_running_loop)).
Proof.
  intros Hcur Hrun. unfold AsyncToSync_call, in_running_loop.
  by rewrite Hcur, Hrun.
Qed.

(** A coroutine only writes to its own cell. *)
Lemma main_wrap_other_cell co fs (c : nat) :
  co_cell co <> c ->
  fst (main_wrap is_Exception co fs) !! c = fs !! c /\
  length (fst (main_wrap is_Exception co fs)) = length fs.
Proof.
  intros Hne. unfold main_wrap, set_cell.
  repeat case_match; simpl; try done;
    by rewrite list_lookup_insert_ne, length_insert.
Qed.

(** A coroutine leaves a cell that is set as it is. *)
Lemma main_wrap_keeps_set_cell co fs (c : nat) x :
  fs !! c = Some x -> x <> Pending ->
  fst (main_wrap is_Exception co fs) !! c = Some x.
Proof.
  intros Hc Hx. unfold main_wrap, set_cell.
  repeat case_match; simpl; try done;
    (destruct (decide (co_cell co = c)) as [<-|Hne];
     [congruence | by rewrite list_lookup_insert_ne]).
Qed.

(** The cells after a loop has started a coroutine are those that
    [main_wrap] leaves, and the loop goes on unless the coroutine stops
    it. *)
Lemma start_cells co fs :
  fst (start is_Exception stops_loop co fs) = fst (main_wrap is_Exception co fs).
Proof.
  unfold start. destruct (main_wrap is_Exception co fs) as [fs' [[e|e]|]]; done.
Qed.

Lemma start_goes_on co fs :
  snd (start is_Exception stops_loop co fs) = negb (stops is_Exception stops_loop co).
Proof.
  unfold start, stops, main_wrap, set_cell.
  destruct (co_awaitable co (co_args co)) as [v|e].
  - by repeat case_match; simplify_eq.
  - destruct (is_Exception e); simpl; [|done].
    by repeat case_match; simplify_eq.
Qed.

Lemma start_all_cons co cos fs :
  start_all is_Exception stops_loop (co :: cos) fs
  = if stops is_Exception stops_loop co
    then (fst (main_wrap is_Exception co fs), false, cos)
    else start_all is_Exception stops_loop cos (fst (main_wrap is_Exception co fs)).
Proof.
  simpl. pose proof (start_cells co fs) as Hcells.
  pose proof (start_goes_on co fs) as Hgoes.
  destruct (start is_Exception stops_loop co fs) as [fs' b]. simpl in *. subst.
  by destruct (stops is_Exception stops_loop co).
Qed.

Lemma start_all_other_cell cos fs (c : nat) :
  Forall (fun co => co_cell co <> c) cos ->
  fst (fst (start_all is_Exception stops_loop cos fs)) !! c = fs !! c.
Proof.
  intros Hcos. revert fs. induction Hcos as [|co cos Hco _ IH]; intros fs; [done|].
  rewrite start_all_cons. destruct (stops is_Exception stops_loop co); simpl.
  - by apply main_wrap_other_cell.
  - rewrite IH. by apply main_wrap_other_cell.
Qed.

Lemma start_all_keeps_set_cell cos fs (c : nat) x :
  fs !! c = Some x -> x <> Pending ->
  fst (fst (start_all is_Exception stops_loop cos fs)) !! c = Some x.
Proof.
  intros Hc Hx. revert fs Hc. induction cos as [|co cos IH]; intros fs Hc; [done|].
  rewrite start_all_cons. destruct (stops is_Exception stops_loop co); simpl.
  - by apply main_wrap_keeps_set_cell.
  - apply IH. by apply main_wrap_keeps_set_cell.
Qed.

(** Coroutines that do not stop the loop are all started, and the loop
    goes on with what comes after them. *)
Lemma start_all_app cos more fs :
  Forall (fun co => stops is_Exception stops_loop co = false) cos ->
  start_all is_Exception stops_loop (cos ++ more) fs
  = start_all is_Exception stops_loop more
      (fst (fst (start_all is_Exception stops_loop cos fs))).
Proof.
  intros Hcos. revert fs. induction Hcos as [|co cos Hco _ IH]; intros fs; [done|].
  rewrite <- app_comm_cons, !start_all_cons, Hco. apply IH.
Qed.

Lemma start_all_runs cos fs :
  Forall (fun co => stops is_Exception stops_loop co = false) cos ->
  snd (fst (start_all is_Exception stops_loop cos fs)) = true.
Proof.
  intros Hcos. revert fs. induction Hcos as [|co cos Hco _ IH]; intros fs; [done|].
  rewrite start_all_cons, Hco. apply IH.
Qed.

(** The loops, one after the other. *)
Lemma run_loops_cons lp ls fs :
  run_loops is_Exception stops_loop (lp :: ls) fs
  = (fst (run_loop is_Exception stops_loop lp fs)
       :: fst (run_loops is_Exception stops_loop ls
                 (snd (run_loop is_Exception stops_loop lp fs))),
     snd (run_loops is_Exception stops_loop ls
            (snd (run_loop is_Exception stops_loop lp fs)))).
Proof.
  simpl. destruct (run_loop is_Exception stops_loop lp fs) as [lp' fs']. simpl.
  by destruct (run_loops is_Exception stops_loop ls fs').
Qed.

Lemma run_loops_app_cells ls ls' fs :
  snd (run_loops is_Exception stops_loop (ls ++ ls') fs)
  = snd (run_loops is_Exception stops_loop ls'
           (snd (run_loops is_Exception stops_loop ls fs))).
Proof.
  revert fs. induction ls as [|lp ls IH]; intros fs; [done|].
  rewrite <- app_comm_cons, !run_loops_cons. simpl. apply IH.
Qed.

Lemma run_scheduled_parts w :
  loops (run_scheduled is_Exception stops_loop w)
  = fst (run_loops is_Exception stops_loop (loops w) (futures w)) /\
  futures (run_scheduled is_Exception stops_loop w)
  = snd (run_loops is_Exception stops_loop (loops w) (futures w)) /\
  current_loop (run_scheduled is_Exception stops_loop w) = current_loop w.
Proof.
  unfold run_scheduled.
  by destruct (run_loops is_Exception stops_loop (loops w) (futures w)).
Qed.

Lemma run_loop_other_cell lp fs (c : nat) :
  Forall (fun co => co_cell co <> c) (scheduled lp) ->
  snd (run_loop is_Exception stops_loop lp fs) !! c = fs !! c.
Proof.
  intros Hlp. unfold run_loop. destruct (is_running lp); [|done].
  pose proof (start_all_other_cell (scheduled lp) fs c Hlp) as Hcells.
  by destruct (start_all is_Exception stops_loop (scheduled lp) fs) as [[fs' b] rest].
Qed.

Lemma run_loop_keeps_set_cell lp fs (c : nat) x :
  fs !! c = Some x -> x <> Pending ->
  snd (run_loop is_Exception stops_loop lp fs) !! c = Some x.
Proof.
  intros Hc Hx. unfold run_loop. destruct (is_running lp); [|done].
  pose proof (start_all_keeps_set_cell (scheduled lp) fs c x Hc Hx) as Hcells.
  by destruct (start_all is_Exception stops_loop (scheduled lp) fs) as [[fs' b] rest].
Qed.

Lemma run_loops_other_cell ls fs (c : nat) :
  Forall (fun lp => Forall (fun co => co_cell co <> c) (scheduled lp)) ls ->
  snd (run_loops is_Exception stops_loop ls fs) !! c = fs !! c.
Proof.
  intros Hls. revert fs. induction Hls as [|lp ls Hlp _ IH]; intros fs; [done|].
  rewrite run_loops_cons. simpl. rewrite IH. by apply run_loop_other_cell.
Qed.

Lemma run_loops_keeps_set_cell ls fs (c : nat) x :
  fs !! c = Some x -> x <> Pending ->
  snd (run_loops is_Exception stops_loop ls fs) !! c = Some x.
Proof.
  intros Hc Hx. revert fs Hc. induction ls as [|lp ls IH]; intros fs Hc; [done|].
  rewrite run_loops_cons. simpl. apply IH. by apply run_loop_keeps_set_cell.
Qed.

Lemma main_wrap_sets_cell co fs x :
  settled is_Exception (co_awaitable co (co_args co)) = Some x ->
  fs !! co_cell co = Some Pending ->
  main_wrap is_Exception co fs = (<[co_cell co := x]> fs, None).
Proof.
  intros Hx Hc. unfold main_wrap, set_cell, settled in *.
  destruct (co_awaitable co (co_args co)) as [v|e].
  - simplify_eq. by rewrite Hc.
  - destruct (is_Exception e); [|done]. simplify_eq. by rewrite Hc.
Qed.

(** A coroutine whose awaitable gives a value or an [Exception] does not
    stop its loop. *)
Lemma settled_goes_on co x :
  settled is_Exception (co_awaitable co (co_args co)) = Some x ->
  stops is_Exception stops_loop co = false.
Proof.
  unfold settled, stops. destruct (co_awaitable co (co_args co)) as [v|e]; [done|].
  by destruct (is_Exception e).
Qed.

Lemma settled_not_pending (r : awaited Val Exc) x :
  settled is_Exception r = Some x -> x <> Pending.
Proof. unfold settled. intros Hx. repeat case_match; by simplify_eq. Qed.

(** Reading a cell that is set. *)
Lemma future_result_set (c : nat) w x :
  futures w !! c = Some x -> x <> Pending ->
  future_result is_Exception stops_loop c w = (w, end_of_cell x).
Proof.
  intros Hc Hx. unfold future_result. rewrite Hc. by destruct x.
Qed.

(** The coroutines that wait on loops of a well-formed world do not hold
    the cell that is made next. *)
Lemma waiting_other_cell w ls :
  world_ok w -> (forall lp, lp ∈ ls -> lp ∈ loops w) ->
  Forall (fun lp => Forall (fun co => co_cell co <> length (futures w)) (scheduled lp))
         ls.
Proof.
  intros Hok Hsub. apply Forall_forall. intros lp Hlp.
  apply Forall_forall. intros co Hco.
  assert (co_cell co < length (futures w))%nat; [|lia].
  apply (Hok lp co); [|done]. by apply Hsub.
Qed.

(** The run of the scheduled coroutines, when the home loop runs, is not
    stopped by what waits on it, and has been handed the coroutine of the
    call, sets the cell of the call. *)
Lemma run_scheduled_sets_cell w (l : nat) lp co x :
  world_ok w ->
  loops w !! l = Some lp -> is_running lp = true ->
  keeps_running is_Exception stops_loop lp ->
  co_cell co = length (futures w) ->
  settled is_Exception (co_awaitable co (co_args co)) = Some x ->
  futures (run_scheduled is_Exception stops_loop
             (call_soon_threadsafe l co
                (World (loops w) (current_loop w) (futures w ++ [Pending]))))
    !! length (futures w) = Some x.
Proof.
  intros Hok Hl Hrun Hquiet Hcell Hx.
  set (c := length (futures w)) in *.
  set (pre := take l (loops w)). set (post := drop (S l) (loops w)).
  assert (Hsplit : pre ++ lp :: post = loops w) by (by apply take_drop_middle).
  assert (Hlen : length pre = l).
  { unfold pre. rewrite length_take. apply lookup_lt_Some in Hl. lia. }
  assert (Hpre : forall lp', lp' ∈ pre -> lp' ∈ loops w)
    by (intros lp'; apply subseteq_take).
  assert (Hlp : Forall (fun co' => co_cell co' <> c) (scheduled lp)).
  { apply Forall_forall. intros co' Hco'.
    assert (co_cell co' < c)%nat; [|lia].
    apply (Hok lp co'); [|done]. by eapply list_elem_of_lookup_2. }
  destruct (run_scheduled_parts
              (call_soon_threadsafe l co
                 (World (loops w) (current_loop w) (futures w ++ [Pending]))))
    as (_ & -> & _).
  unfold call_soon_threadsafe. simpl.
  rewrite <- Hsplit.
  rewrite alter_app_r_alt by lia.
  rewrite Hlen, Nat.sub_diag. simpl.
  rewrite run_loops_app_cells, run_loops_cons. simpl.
  set (fs1 := snd (run_loops is_Exception stops_loop pre (futures w ++ [Pending]))).
  assert (Hfs1 : fs1 !! c = Some Pending).
  { unfold fs1. rewrite run_loops_other_cell by (by apply waiting_other_cell).
    by apply list_lookup_middle. }
  apply run_loops_keeps_set_cell; [|by eapply settled_not_pending].
  unfold run_loop. simpl. rewrite Hrun.
  rewrite (start_all_app (scheduled lp) [co] fs1 Hquiet).
  set (fs2 := fst (fst (start_all is_Exception stops_loop (scheduled lp) fs1))).
  assert (Hfs2 : fs2 !! c = Some Pending).
  { unfold fs2. by rewrite start_all_other_cell. }
  rewrite start_all_cons, (settled_goes_on co x Hx).
  rewrite (main_wrap_sets_cell co fs2 x Hx) by (by rewrite Hcell).
  simpl. rewrite Hcell. apply list_lookup_insert_eq.
  by eapply lookup_lt_Some.
Qed.

(** The call from a thread that is not in a running loop, in terms of
    what [main_wrap] stores. *)
Lemma call_settles self args w x :
  in_running_loop w = false -> world_ok w ->
  (forall l lp, main_event_loop self = Some l -> loops w !! l = Some lp ->
                keeps_running is_Exception stops_loop lp) ->
  settled is_Exception (awaitable self args) = Some x ->
  futures (fst (AsyncToSync_call is_Exception stops_loop self args w))
    !! length (futures w)
  = Some x /\
  snd (AsyncToSync_call is_Exception stops_loop self args w) = end_of_cell x.
Proof.
  intros Hnot Hok Hquiet Hx.
  assert (Hset : x <> Pending) by (by eapply settled_not_pending).
  unfold AsyncToSync_call. rewrite Hnot.
  set (c := length (futures w)).
  set (w1 := World (loops w) (current_loop w) (futures w ++ [Pending])).
  set (co := Coroutine (awaitable self) args c).
  assert (Hread : forall w2,
    futures w2 !! c = Some x ->
    futures (fst (future_result is_Exception stops_loop c w2)) !! c = Some x /\
    snd (future_result is_Exception stops_loop c w2) = end_of_cell x).
  { intros w2 Hc. by rewrite (future_result_set c w2 x Hc Hset). }
  assert (Hhome : forall l, main_event_loop self = Some l -> loop_running w l = true ->
    futures (fst (future_result is_Exception stops_loop c
                    (call_soon_threadsafe l co w1))) !! c
    = Some x /\
    snd (future_result is_Exception stops_loop c (call_soon_threadsafe l co w1))
    = end_of_cell x).
  { intros l Hmain Hrun. unfold loop_running in Hrun.
    destruct (loops w !! l) as [lp|] eqn:Hl; [|done].
    pose proof (run_scheduled_sets_cell w l lp co x Hok Hl Hrun
                  (Hquiet l lp Hmain Hl) eq_refl Hx) as Hrs.
    fold c in Hrs. fold w1 in Hrs.
    unfold future_result.
    assert (Hc : futures (call_soon_threadsafe l co w1) !! c = Some Pending)
      by (by apply list_lookup_middle).
    rewrite Hc, Hrs. by destruct x. }
  rewrite (main_wrap_sets_cell co (futures w1) x Hx)
    by (by apply list_lookup_middle).
  assert (Hnew : <[co_cell co := x]> (futures w1) !! c = Some x).
  { apply list_lookup_insert_eq. simpl. rewrite length_app. simpl. unfold c. lia. }
  destruct (main_event_loop self) as [l|] eqn:Hmain.
  - change (loop_running w1 l) with (loop_running w l).
    destruct (loop_running w l) eqn:Hrun.
    + by apply Hhome.
    + by apply Hread.
  - by apply Hread.
Qed.


End BridgeFacts.


Lemma call_in_running_loop_raises_witness :
  AsyncToSync_call id negb (adapter (fun _ => Completes 7%nat)) tt inside_loop_world
  = (inside_loop_world, Error (Builtin RuntimeError_running_loop)).
Proof.
  apply (call_in_running_loop_raises id negb (adapter (fun _ => Completes 7%nat)) tt
           inside_loop_world 0%nat); reflexivity.
Defined.



(** * Further properties of the pool *)

Section PoolEdges.

Context {Key : Type} `{!EqDecision Key} {Task Sink : Type}.
Implicit Types (p : pool Key Task Sink) (k : Key) (t : Task)
  (c : submission Key Task) (cs : list (submission Key Task)).

(** The steps of [submit_id] after the scan keep the configuration and
    the number of queues and deques. *)
Lemma after_scan_keeps_configuration p key t (found : option Z) :
  let r := (worker_id <~ match found with
                         | Some i => ret i
                         | None => i <~ choose_worker ;;
                                   modify (set_current_id i) ;;; ret i
                         end ;;
            worker <~ queue_at worker_id ;;
            watching <~ watching_at worker_id ;;
            iterate_queue_at (fst watching) (snd watching) key ;;;
            put_at (fst worker) (snd worker) t) p in
  out_queue (fst r) = out_queue p /\
  max_workers (fst r) = max_workers p /\
  max_watching (fst r) = max_watching p /\
  length (queue_list (fst r)) = length (queue_list p) /\
  length (watching_list (fst r)) = length (watching_list p).
Proof.
  unfold bind, choose_worker, py_mod, queue_at, watching_at,
    iterate_queue_at, put_at, modify, ret, raise, bind.
  repeat (case_match; simplify_eq; simpl in *; rewrite ?length_insert; try done).
Qed.

(** X1.  Whatever the pool, the key and the task, and whether it returns
    or raises, [submit_id] changes neither the output queue, nor the
    number of workers, nor the capacity, nor the number of queues and of
    deques. *)
Theorem submit_id_keeps_configuration p key t :
  out_queue (fst (submit_id key t p)) = out_queue p /\
  max_workers (fst (submit_id key t p)) = max_workers p /\
  max_watching (fst (submit_id key t p)) = max_watching p /\
  length (queue_list (fst (submit_id key t p))) = length (queue_list p) /\
  length (watching_list (fst (submit_id key t p))) = length (watching_list p).
Proof.
  unfold submit_id. destruct key as [k|].
  - destruct (scan_workers_ends k (py_range (max_workers p)) p)
      as [H|[(i & _ & H)|H]].
    + erewrite bind_returns by exact H.
      apply (after_scan_keeps_configuration p (Some k) t None).
    + erewrite bind_returns by exact H.
      apply (after_scan_keeps_configuration (set_current_id i p) (Some k) t (Some i)).
    + erewrite bind_raises by exact H. done.
  - erewrite bind_returns by reflexivity.
    apply (after_scan_keeps_configuration p None t None).
Qed.

(** X2.  On a well-formed pool [submit_id] never raises, and the cursor
    it leaves names the worker that got the task: a worker of the pool,
    whose queue has the task as its newest item and one more unfinished
    task, while every other queue is as before. *)
Theorem submit_id_puts_task_on_cursor p key t :
  well_formed p ->
  snd (submit_id key t p) = Returns tt /\
  exists (i : nat) q,
    current_id (fst (submit_id key t p)) = Z.of_nat i /\
    0 <= Z.of_nat i < max_workers p /\
    queue_list p !! i = Some q /\
    queue_list (fst (submit_id key t p))
    = <[i := Queue (items q ++ [t]) (S (unfinished_tasks q))]> (queue_list p).
Proof.
  intros Hwf. pose proof Hwf as (Hn & _ & Hql & _).
  destruct (submit_id_well_formed p key t Hwf) as (i & w & q & _ & Hq & Heq & _).
  rewrite Heq. split; [done|]. exists i, q. simpl.
  split; [done|]. split; [|done]. apply lookup_lt_Some in Hq. lia.
Qed.

(** X3.  A key that no worker holds, in a pool that satisfies the
    invariant and has room for at least one key per worker: the call goes
    to the worker after the cursor, and afterwards that worker holds the
    key, and no other worker does. *)
Theorem new_key_becomes_resident p k t :
  pool_ok p -> 1 <= max_watching p ->
  (forall j, ~ owns p j k) ->
  current_id (after p (Some k, t)) = (current_id p + 1) mod max_workers p /\
  owns (after p (Some k, t)) (Z.to_nat (current_id (after p (Some k, t)))) k /\
  (forall j, owns (after p (Some k, t)) j k ->
             Z.of_nat j = current_id (after p (Some k, t))).
Proof.
  intros Hok Hm Hnone. pose proof Hok as (Hwf & _ & Hcap).
  destruct (submit_id_well_formed p (Some k) t Hwf)
    as (i & w & q & Hw & Hq & Heq & Hroute).
  destruct Hroute as [[Hin _]|[_ Hi]]; [destruct (Hnone i); by exists w|].
  assert (Hk : k ∉ w) by (intros Hin; destruct (Hnone i); by exists w).
  unfold after. simpl. rewrite Heq. simpl. split; [done|].
  rewrite Nat2Z.id. split.
  - exists (fst (iterate_queue (max_watching p) (Some k) w)). split.
    + apply list_lookup_insert_eq. by eapply lookup_lt_Some.
    + specialize (Hcap i w Hw).
      destruct (decide (Z.of_nat (length w) = max_watching p)).
      * rewrite iterate_queue_full by done. simpl.
        destruct w as [|x w]; simpl in *; [lia|].
        apply elem_of_app. right. by apply list_elem_of_singleton.
      * rewrite iterate_queue_room by (done || lia). simpl.
        apply elem_of_app. right. by apply list_elem_of_singleton.
  - intros j Hj.
    assert (Hafter : after p (Some k, t) =
      Pool (out_queue p) (max_workers p) (max_watching p) (Z.of_nat i)
           (<[i := put t q]> (queue_list p))
           (<[i := fst (iterate_queue (max_watching p) (Some k) w)]> (watching_list p)))
      by (unfold after; simpl; by rewrite Heq).
    rewrite <- Hafter in Hj.
    apply (owns_after p (Some k, t) j k Hwf) in Hj as [Hj|(_ & _ & Hj)].
    + by destruct (Hnone j).
    + by rewrite Hj, Hafter.
Qed.

(** X4.  With capacity 0 a key changes nothing: in a pool that
    satisfies the invariant, [submit_id] with a key does exactly what
    [submit] does (plain round-robin, and the affinity sets stay empty). *)
Theorem zero_capacity_is_round_robin p k t :
  pool_ok p -> max_watching p = 0 ->
  submit_id (Some k) t p = submit t p.
Proof.
  intros (Hwf & _ & Hcap) Hm.
  assert (Hempty : forall (j : nat) w, watching_list p !! j = Some w -> w = []).
  { intros j w Hw. specialize (Hcap j w Hw). destruct w; [done | simpl in Hcap; lia]. }
  destruct (submit_id_well_formed p (Some k) t Hwf)
    as (i & w & q & Hw & Hq & Heq & Hroute).
  destruct (submit_id_well_formed p None t Hwf)
    as (i' & w' & q' & Hw' & Hq' & Heq' & Hroute').
  unfold submit. rewrite Heq, Heq'.
  pose proof (Hempty i w Hw) as ->. pose proof (Hempty i' w' Hw') as ->.
  destruct Hroute as [[Hin _]|[_ Hi]]; [by apply elem_of_nil in Hin|].
  assert (i = i') as -> by lia. simplify_eq.
  rewrite Hm. done.
Qed.

(** The number of waiting tasks after a task is put on one queue. *)
Lemma waiting_put (l : list (queue Task)) (i : nat) q t :
  l !! i = Some q ->
  concat ((fun q => items q) <$> <[i := put t q]> l)
  ≡ₚ concat ((fun q => items q) <$> l) ++ [t].
Proof.
  intros Hq. rewrite insert_take_drop by (by eapply lookup_lt_Some).
  rewrite <- (take_drop_middle l i q Hq) at 3.
  rewrite !fmap_app, !fmap_cons, !concat_app. simpl.
  rewrite <- !(assoc_L (++)). do 2 apply Permutation_app_head.
  apply Permutation_app_comm.
Qed.

(** X5.  No task is lost and none is queued twice: on a well-formed
    pool, after any sequence of [submit] and [submit_id] calls, the tasks
    that wait on the queues are those that waited before together with
    the tasks of the calls, each as many times as it was submitted. *)
Theorem every_task_is_queued_once p cs :
  well_formed p ->
  waiting (run_all p cs) ≡ₚ waiting p ++ (snd <$> cs).
Proof.
  revert p. induction cs as [|c cs IH]; intros p Hwf; simpl.
  - by rewrite app_nil_r.
  - rewrite IH by (by apply well_formed_after).
    destruct c as [key t].
    destruct (submit_id_well_formed p key t Hwf) as (i & w & q & _ & Hq & Heq & _).
    unfold waiting, after. simpl. rewrite Heq. simpl.
    rewrite (waiting_put _ i q t Hq). by rewrite <- (assoc_L (++)).
Qed.

(** X6.  A pool without workers takes no task.  With [max_workers = 0],
    whatever else the pool holds, every call raises [ZeroDivisionError]
    and leaves the pool as it is.  With a negative [max_workers] (and so
    no queue), every call raises [IndexError], after it has moved the
    cursor. *)
Theorem pool_without_workers p key t :
  (max_workers p = 0 ->
   submit_id key t p = (p, Raises ZeroDivisionError)) /\
  (max_workers p < 0 -> queue_list p = [] ->
   submit_id key t p
   = (set_current_id ((current_id p + 1) mod max_workers p) p, Raises IndexError)).
Proof.
  assert (Hscan : max_workers p <= 0 ->
    forall k, scan_workers k (py_range (max_workers p)) None p = (p, Returns None)).
  { intros Hn k. unfold py_range, seqZ.
    by replace (Z.to_nat (max_workers p)) with 0%nat by lia. }
  split.
  - intros Hn. unfold submit_id.
    erewrite bind_returns
      by (destruct key; [apply Hscan; lia | reflexivity]).
    unfold bind, choose_worker, py_mod. by rewrite decide_True.
  - intros Hn Hq. unfold submit_id.
    erewrite bind_returns
      by (destruct key; [apply Hscan; lia | reflexivity]).
    unfold bind, choose_worker, py_mod, modify, ret, queue_at.
    rewrite decide_False by lia. simpl. rewrite Hq. simpl.
    unfold py_index. simpl. by rewrite !decide_False by lia.
Qed.

Lemma iterate_queue_negative_capacity maxw (key : option Key) :
  maxw < 0 ->
  iterate_queue maxw key []
  = ([], match key with Some _ => Returns tt | None => Raises IndexError end).
Proof.
  intros Hm. unfold iterate_queue, bind, ret. destruct key as [k|].
  - rewrite decide_False by (by intros ?%elem_of_nil). simpl.
    by rewrite decide_True by lia.
  - simpl. by rewrite decide_True by lia.
Qed.

Lemma submit_id_negative_capacity p key t :
  negative_capacity p ->
  exists (i : nat) q,
    Z.of_nat i = (current_id p + 1) mod max_workers p /\
    queue_list p !! i = Some q /\
    submit_id key t p =
      match key with
      | Some _ =>
          (Pool (out_queue p) (max_workers p) (max_watching p) (Z.of_nat i)
                (<[i := put t q]> (queue_list p)) (watching_list p),
           Returns tt)
      | None => (set_current_id (Z.of_nat i) p, Raises IndexError)
      end.
Proof.
  intros (Hn & Hm & Hql & Hwl & Hempty).
  set (i := Z.to_nat ((current_id p + 1) mod max_workers p)).
  pose proof (Z.mod_pos_bound (current_id p + 1) (max_workers p) ltac:(lia)) as Hi.
  destruct (lookup_lt_is_Some_2 (watching_list p) i) as [w Hw]; [lia|].
  destruct (lookup_lt_is_Some_2 (queue_list p) i) as [q Hq]; [lia|].
  pose proof (Hempty i w Hw) as ->.
  exists i, q. split; [lia|]. split; [done|].
  assert (Hchoose :
    (i0 <~ choose_worker ;; modify (set_current_id i0) ;;; ret i0) p
    = (set_current_id (Z.of_nat i) p, Returns (Z.of_nat i))).
  { unfold bind, choose_worker, py_mod.
    rewrite decide_False by lia. simpl.
    by replace (Z.of_nat i) with ((current_id p + 1) mod max_workers p) by lia. }
  assert (Hsame : <[i := []]> (watching_list p) = watching_list p)
    by (by apply list_insert_id).
  unfold submit_id. destruct key as [k|].
  - destruct (scan_workers_range k p (Z.to_nat (max_workers p)) 0)
      as [(j & w & _ & Hj & Hin & _)|[_ Hscan]]; [lia| |].
    { rewrite (Hempty j w Hj) in Hin. by apply elem_of_nil in Hin. }
    change (Z.of_nat 0) with 0 in Hscan. rewrite Z2Nat.id in Hscan by lia.
    erewrite bind_returns by exact Hscan.
    erewrite bind_returns by exact Hchoose.
    erewrite bind_returns by (by apply queue_at_nat).
    erewrite bind_returns by (by apply watching_at_nat).
    unfold bind, iterate_queue_at, put_at, modify. simpl.
    rewrite iterate_queue_negative_capacity by done. simpl. by rewrite Hsame.
  - erewrite bind_returns by reflexivity.
    erewrite bind_returns by exact Hchoose.
    erewrite bind_returns by (by apply queue_at_nat).
    erewrite bind_returns by (by apply watching_at_nat).
    unfold bind, iterate_queue_at. simpl.
    rewrite iterate_queue_negative_capacity by done.
    unfold set_watching_list, set_current_id. simpl. by rewrite Hsame.
Qed.

Lemma negative_capacity_after p c :
  negative_capacity p ->
  negative_capacity (after p c) /\ max_workers (after p c) = max_workers p.
Proof.
  intros Hneg. pose proof Hneg as (Hn & Hm & Hql & Hwl & Hempty).
  destruct c as [key t].
  destruct (submit_id_negative_capacity p key t Hneg) as (i & q & _ & _ & Heq).
  unfold after, negative_capacity. simpl. rewrite Heq.
  destruct key; simpl; by rewrite ?length_insert.
Qed.

Lemma negative_capacity_run_all p cs :
  negative_capacity p ->
  negative_capacity (run_all p cs) /\ max_workers (run_all p cs) = max_workers p.
Proof.
  revert p. induction cs as [|c cs IH]; intros p Hneg; simpl; [done|].
  destruct (negative_capacity_after p c Hneg) as [Hneg' Hn'].
  destruct (IH _ Hneg') as [? Hn'']. split; [done|]. by rewrite Hn''.
Qed.

Lemma negative_capacity_init (oq : option Sink) (workers watching : Z) :
  1 <= workers -> watching < 0 ->
  negative_capacity (init (Key:=Key) (Task:=Task) oq workers watching).
Proof.
  intros Hn Hm. unfold negative_capacity, init. simpl.
  rewrite !length_replicate. repeat split; try done.
  intros j w Hw. by apply lookup_replicate in Hw as [-> _].
Qed.

(** X7.  A pool built with a negative [max_watching] (and at least one
    worker), after any calls: [submit] raises [IndexError] (the
    [popleft] of an empty deque) once it has moved the cursor, and the
    task is put on no queue; and no affinity set holds any key, so that
    keys give no affinity. *)
Theorem negative_capacity_drops_unkeyed_tasks
    (oq : option Sink) (workers watching : Z) cs t :
  1 <= workers -> watching < 0 ->
  submit t (run_all (init oq workers watching) cs)
  = (set_current_id
       ((current_id (run_all (init oq workers watching) cs) + 1) mod workers)
       (run_all (init oq workers watching) cs),
     Raises IndexError) /\
  (forall j k, ~ owns (run_all (init (Key:=Key) (Task:=Task) oq workers watching) cs) j k).
Proof.
  intros Hn Hm.
  destruct (negative_capacity_run_all _ cs
              (negative_capacity_init oq workers watching Hn Hm)) as [Hneg Hsame].
  simpl in Hsame. split.
  - destruct (submit_id_negative_capacity _ None t Hneg) as (i & q & Hi & _ & Heq).
    unfold submit. by rewrite Heq, Hi, Hsame.
  - intros j k (w & Hw & Hk). destruct Hneg as (_ & _ & _ & _ & Hempty).
    rewrite (Hempty j w Hw) in Hk. by apply elem_of_nil in Hk.
Qed.

(** What one call keeps, every state of a run has. *)
Lemma states_after_invariant (I : pool Key Task Sink -> Prop) p cs :
  (forall p' c, I p' -> I (after p' c)) -> I p ->
  Forall I (states_after p cs).
Proof.
  intros Hstep. revert p. induction cs as [|c cs IH]; intros p Hp; simpl;
    constructor; [by apply Hstep | apply IH; by apply Hstep].
Qed.

(** X8.  An affinity set never holds a key twice: from a fresh pool,
    whatever its number of workers and its capacity, and after each call
    of any sequence, no deque has a repeated key. *)
Theorem deques_have_no_repeats (oq : option Sink) (workers watching : Z) cs :
  Forall (fun p : pool Key Task Sink =>
            forall (j : nat) w, watching_list p !! j = Some w -> NoDup w)
         (states_after (init oq workers watching) cs).
Proof.
  destruct (decide (1 <= workers)) as [Hn|Hn];
    [destruct (decide (0 <= watching)) as [Hm|Hm]|].
  - eapply Forall_impl.
    + apply (states_after_invariant
               (fun p => well_formed p /\
                  forall (j : nat) w, watching_list p !! j = Some w -> NoDup w)).
      * intros p [key t] [Hwf Hnd].
        split; [by apply well_formed_after|].
        destruct (submit_id_well_formed p key t Hwf)
          as (i & w & q & Hw & _ & Heq & _).
        intros j w' Hj. unfold after in Hj. simpl in Hj. rewrite Heq in Hj.
        simpl in Hj. destruct (decide (j = i)) as [->|Hne].
        -- rewrite list_lookup_insert_eq in Hj by (by eapply lookup_lt_Some).
           simplify_eq. apply iterate_queue_NoDup. by apply (Hnd i).
        -- rewrite list_lookup_insert_ne in Hj by done. by apply (Hnd j).
      * split.
        -- unfold well_formed, init. simpl. by rewrite !length_replicate.
        -- intros j w Hw. simpl in Hw. apply lookup_replicate in Hw as [-> _].
           constructor.
    + by intros p [_ Hnd].
  - eapply Forall_impl.
    + apply (states_after_invariant negative_capacity).
      * intros p c Hneg. by apply negative_capacity_after.
      * apply negative_capacity_init; lia.
    + intros p (_ & _ & _ & _ & Hempty) j w Hw.
      rewrite (Hempty j w Hw). constructor.
  - eapply Forall_impl.
    + apply (states_after_invariant
               (fun p => queue_list p = [] /\ watching_list p = [])).
      * intros p c [Hq Hw]. destruct (after_no_queue p c Hq) as (Hq' & Hw' & _).
        split; [done|]. by rewrite Hw'.
      * unfold init. simpl. by replace (Z.to_nat workers) with 0%nat by lia.
    + intros p [_ Hw] j w Hj. by rewrite Hw in Hj.
Qed.

End PoolEdges.

Lemma submit_id_puts_task_on_cursor_witness :
  snd (submit_id (Some 5%nat) 10%nat (init (Sink:=unit) None 3 2)) = Returns tt /\
  exists (i : nat) q,
    current_id (fst (submit_id (Some 5%nat) 10%nat (init (Sink:=unit) None 3 2)))
    = Z.of_nat i /\
    0 <= Z.of_nat i < max_workers (init (Key:=nat) (Task:=nat) (Sink:=unit) None 3 2) /\
    queue_list (init (Key:=nat) (Task:=nat) (Sink:=unit) None 3 2) !! i = Some q /\
    queue_list (fst (submit_id (Some 5%nat) 10%nat (init (Sink:=unit) None 3 2)))
    = <[i := Queue (items q ++ [10%nat]) (S (unfinished_tasks q))]>
        (queue_list (init (Key:=nat) (Task:=nat) (Sink:=unit) None 3 2)).
Proof.
  apply (submit_id_puts_task_on_cursor
           (init (Key:=nat) (Task:=nat) (Sink:=unit) None 3 2) (Some 5%nat) 10%nat).
  unfold well_formed. simpl. lia.
Defined.

Lemma new_key_becomes_resident_witness :
  current_id (after key_on_worker_1 (Some 9%nat, 42%nat))
  = (current_id key_on_worker_1 + 1) mod max_workers key_on_worker_1 /\
  owns (after key_on_worker_1 (Some 9%nat, 42%nat))
       (Z.to_nat (current_id (after key_on_worker_1 (Some 9%nat, 42%nat)))) 9%nat /\
  (forall j, owns (after key_on_worker_1 (Some 9%nat, 42%nat)) j 9%nat ->
             Z.of_nat j = current_id (after key_on_worker_1 (Some 9%nat, 42%nat))).
Proof.
  apply (new_key_becomes_resident key_on_worker_1 9%nat 42%nat
           pool_ok_key_on_worker_1).
  - simpl. lia.
  - intros [|[|j]] (w & Hw & Hk); simpl in Hw; simplify_eq.
    + by apply elem_of_nil in Hk.
    + apply list_elem_of_singleton in Hk. lia.
Defined.

(** * Further properties of the worker, and [shutdown] *)

Section WorkerRuns.

Context {Task Result Exc : Type}.
Variable call : Task -> Result + Exc.
Implicit Types (w : worker Task Result) (q : queue Task) (t : Task).

(** X9.  A worker whose waiting tasks all return runs them in the order
    of the queue: given enough turns it ends waiting in [queue.get()] on
    the empty queue, having forwarded the results in that order (when
    there is an output queue) and signalled [task_done] once per task. *)
Theorem worker_runs_queue_in_order w ts rs (n fuel : nat) :
  items (wqueue w) = ts ->
  Forall2 (fun t r => call t = inl r) ts rs ->
  unfinished_tasks (wqueue w) = (length ts + n)%nat ->
  run call (length ts + S fuel) w
  = (Worker (Queue [] n) (forwarded rs (wout w)), Waiting).
Proof.
  intros Hitems Hts. revert w n Hitems.
  induction Hts as [|t r ts rs Hr Hts IH]; intros w n Hitems Hunf.
  - simpl in *. unfold run_body, get. rewrite Hitems.
    destruct w as [[its m] [[oits om]|]]; simpl in *; subst;
      by rewrite ?app_nil_r, ?Nat.add_0_r.
  - simpl in Hunf. simpl.
    unfold run_body, get, task_done. rewrite Hitems, Hr. simpl. rewrite Hunf.
    rewrite (IH _ n); simpl; [|done|done].
    f_equal. f_equal.
    destruct (wout w) as [[its m]|]; simpl; [|done].
    rewrite <- app_assoc. simpl. do 2 f_equal. lia.
Qed.

(** The output queue has no part in what the thread does to its queue,
    nor in how it ends. *)
Lemma run_any_output fuel q o o' :
  wqueue (fst (run call fuel (Worker q o)))
  = wqueue (fst (run call fuel (Worker q o'))) /\
  snd (run call fuel (Worker q o)) = snd (run call fuel (Worker q o')).
Proof.
  revert q o o'. induction fuel as [|fuel IH]; intros q o o'; simpl; [done|].
  unfold run_body, get, task_done. simpl.
  destruct (items q) as [|t rest]; simpl; [done|].
  destruct (call t) as [r|e]; simpl; [|done].
  destruct (unfinished_tasks q) as [|m]; simpl; [done|].
  apply IH.
Qed.

(** X10.  One task that raises keeps [join] waiting for ever: when a
    queue holds a task whose call raises (and counts at least its waiting
    tasks as unfinished, as [put] sees to), then however many turns the
    worker thread takes, the queue still has an unfinished task. *)
Theorem raising_task_blocks_join q o t e (fuel : nat) :
  t ∈ items q -> call t = inr e ->
  (length (items q) <= unfinished_tasks q)%nat ->
  join_returns (wqueue (fst (run call fuel (Worker q o)))) = false.
Proof.
  revert q o. induction fuel as [|fuel IH]; intros [its m] o Hin Hcall Hunf;
    simpl in *.
  - destruct its; [by apply elem_of_nil in Hin|]. simpl in Hunf.
    unfold join_returns. simpl. apply bool_decide_eq_false. lia.
  - unfold run_body, get, task_done. simpl.
    destruct its as [|t0 rest]; [by apply elem_of_nil in Hin|]. simpl in *.
    destruct (call t0) as [r|e0] eqn:Hcall0; simpl.
    + destruct m as [|m]; [lia|]. simpl.
      apply IH; simpl; [|done|lia].
      apply elem_of_cons in Hin as [->|Hin]; [congruence | done].
    + unfold join_returns. simpl. apply bool_decide_eq_false. lia.
Qed.

End WorkerRuns.

Section ShutdownBarrier.

Context {Key : Type} `{!EqDecision Key} {Task Result Exc : Type}.
Variable call : Task -> Result + Exc.
Implicit Types (p : pool Key Task (queue Result)) (t : Task)
  (c : submission Key Task) (cs : list (submission Key Task)).

Lemma routed_to_from_calls (i : Z) p cs t :
  t ∈ routed_to i p cs -> exists c, c ∈ cs /\ snd c = t.
Proof.
  revert p. induction cs as [|c cs IH]; intros p; simpl; [by intros ?%elem_of_nil|].
  intros [Hin|Hin]%elem_of_app.
  - case_decide; [|by apply elem_of_nil in Hin].
    apply list_elem_of_singleton in Hin as ->.
    exists c. split; [apply elem_of_cons; by left | done].
  - destruct (IH _ Hin) as (c' & Hc' & <-).
    exists c'. split; [apply elem_of_cons; by right | done].
Qed.

Lemma routed_to_length (i : Z) p cs :
  (length (routed_to i p cs) <= length cs)%nat.
Proof.
  revert p. induction cs as [|c cs IH]; intros p; simpl; [lia|].
  rewrite length_app. specialize (IH (after p c)).
  case_decide; simpl; lia.
Qed.

(** Every call of a run is routed to a worker of the pool. *)
Lemma call_is_routed p cs c :
  well_formed p -> c ∈ cs ->
  exists i : nat, (i < length (queue_list p))%nat /\
                  snd c ∈ routed_to (Z.of_nat i) p cs.
Proof.
  revert p. induction cs as [|c' cs IH]; intros p Hwf Hc;
    [by apply elem_of_nil in Hc|].
  destruct c' as [key t].
  destruct (submit_id_well_formed p key t Hwf) as (i0 & w & q & _ & Hq & Heq & _).
  assert (Hcur : current_id (after p (key, t)) = Z.of_nat i0)
    by (unfold after; simpl; by rewrite Heq).
  assert (Hlen : length (queue_list (after p (key, t))) = length (queue_list p))
    by (unfold after; simpl; rewrite Heq; simpl; by rewrite length_insert).
  apply elem_of_cons in Hc as [->|Hc].
  - exists i0. split; [by eapply lookup_lt_Some|].
    simpl. rewrite Hcur, decide_True by done. apply elem_of_app. left.
    by apply list_elem_of_singleton.
  - destruct (IH (after p (key, t)) (well_formed_after p _ Hwf) Hc) as (i & Hi & Hin).
    exists i. split; [lia|]. simpl. apply elem_of_app. by right.
Qed.

(** The queues of a pool that started fresh hold the tasks routed to
    them, all of them counted as unfinished. *)
Lemma fresh_pool_queue (oq : option (queue Result)) (workers watching : Z) cs (i : nat) :
  1 <= workers -> 0 <= watching ->
  (i < Z.to_nat workers)%nat ->
  queue_list (run_all (init oq workers watching) cs) !! i
  = Some (Queue (routed_to (Z.of_nat i) (init (Key:=Key) oq workers watching) cs)
                (length (routed_to (Z.of_nat i)
                           (init (Key:=Key) oq workers watching) cs))).
Proof.
  intros Hn Hm Hi.
  rewrite (routed_queue (init oq workers watching) cs i new_queue).
  - done.
  - unfold well_formed, init. simpl. by rewrite !length_replicate.
  - simpl. by apply lookup_replicate_2.
Qed.

Lemma run_all_queues p cs :
  well_formed p ->
  length (queue_list (run_all p cs)) = length (queue_list p).
Proof.
  revert p. induction cs as [|[key t] cs IH]; intros p Hwf; simpl; [done|].
  rewrite IH by (by apply well_formed_after).
  destruct (submit_id_well_formed p key t Hwf) as (i & w & q & _ & _ & Heq & _).
  unfold after. simpl. rewrite Heq. simpl. by rewrite length_insert.
Qed.

(** While a task that raises is among the waiting tasks, and the
    unfinished tasks count at least the waiting ones, the count stays
    above zero however far the thread runs. *)
Lemma unfinished_stays_positive (q : queue Task) o t e (fuel : nat) :
  t ∈ items q -> call t = inr e ->
  (length (items q) <= unfinished_tasks q)%nat ->
  (0 < unfinished_tasks (wqueue (fst (run call fuel (Worker q o)))))%nat.
Proof.
  revert q o. induction fuel as [|fuel IH]; intros [its m] o Hin Hcall Hunf;
    simpl in *.
  - destruct its; [by apply elem_of_nil in Hin|]. simpl in Hunf. lia.
  - unfold run_body, get, task_done. simpl.
    destruct its as [|t0 rest]; [by apply elem_of_nil in Hin|]. simpl in *.
    destruct (call t0) as [r|e0] eqn:Hcall0; simpl; [|lia].
    destruct m as [|m]; [lia|]. simpl.
    apply IH; simpl; [|done|lia].
    apply elem_of_cons in Hin as [->|Hin]; [congruence | done].
Qed.

(** A queue whose waiting tasks all return, all counted as unfinished and
    no other, is worked off when the thread has turns enough. *)
Lemma worked_off_returning (ts : list Task) (fuel : nat) :
  (forall t, t ∈ ts -> exists r, call t = inl r) ->
  (length ts < fuel)%nat ->
  worked_off call fuel (Queue ts (length ts)) = Queue [] 0.
Proof.
  revert fuel. induction ts as [|t ts IH]; intros fuel Hts Hfuel;
    (destruct fuel as [|fuel]; [simpl in Hfuel; lia|]).
  - done.
  - destruct (Hts t) as [r Hr]; [apply elem_of_cons; by left|].
    unfold worked_off in *. simpl. unfold run_body, get, task_done. simpl.
    rewrite Hr. simpl. apply IH.
    + intros t' Ht'. apply Hts. apply elem_of_cons. by right.
    + simpl in Hfuel. lia.
Qed.

(** X11.  The barrier: in a pool that started fresh (at least one worker,
    a capacity that is not negative) and has taken any sequence of calls
    whose tasks all return, once every worker thread has had more turns
    than there were calls, [shutdown] returns. *)
Theorem shutdown_returns_after_work
    (oq : option (queue Result)) (workers watching : Z) cs (fuel : nat) :
  1 <= workers -> 0 <= watching ->
  (forall c, c ∈ cs -> exists r, call (snd c) = inl r) ->
  (length cs < fuel)%nat ->
  shutdown (after_work call fuel (run_all (init oq workers watching) cs)) = None.
Proof.
  intros Hn Hm Hreturn Hfuel. unfold shutdown, after_work. simpl.
  assert (Hnone : forall l : list (queue Task),
            Forall (fun q => join_returns q = true) l ->
            list_find (fun q => join_returns q = false) l = None).
  { intros l Hl. apply list_find_None. eapply Forall_impl; [exact Hl|].
    intros q Hq. simpl. by rewrite Hq. }
  rewrite Hnone; [done|].
  apply Forall_fmap, Forall_lookup. intros i q Hq. simpl.
  assert (Hi : (i < Z.to_nat workers)%nat).
  { apply lookup_lt_Some in Hq. rewrite run_all_queues in Hq.
    - simpl in Hq. by rewrite length_replicate in Hq.
    - unfold well_formed, init. simpl. by rewrite !length_replicate. }
  rewrite (fresh_pool_queue oq workers watching cs i Hn Hm Hi) in Hq.
  simplify_eq. rewrite worked_off_returning; [done| |].
  - intros t Ht. destruct (routed_to_from_calls _ _ _ _ Ht) as (c & Hc & <-).
    by apply Hreturn.
  - pose proof (routed_to_length (Z.of_nat i) (init oq workers watching) cs). lia.
Qed.

(** X12.  One task that raises and [shutdown] never returns: in a pool
    that started fresh and has taken any sequence of calls, if the task of
    one call raises, then however many turns the worker threads take,
    [shutdown] is left waiting in the [join] of some queue. *)
Theorem shutdown_waits_after_raising_task
    (oq : option (queue Result)) (workers watching : Z) cs c e (fuel : nat) :
  1 <= workers -> 0 <= watching ->
  c ∈ cs -> call (snd c) = inr e ->
  is_Some (shutdown (after_work call fuel (run_all (init oq workers watching) cs))).
Proof.
  intros Hn Hm Hc Hraise. unfold shutdown, after_work. simpl.
  assert (Hwf : well_formed (init (Key:=Key) (Task:=Task) oq workers watching))
    by (unfold well_formed, init; simpl; by rewrite !length_replicate).
  destruct (call_is_routed _ cs c Hwf Hc) as (i & Hi & Hin).
  simpl in Hi. rewrite length_replicate in Hi.
  pose proof (fresh_pool_queue oq workers watching cs i Hn Hm Hi) as Hq.
  apply fmap_is_Some.
  eapply (list_find_elem_of _ _ (worked_off call fuel _)).
  - apply list_elem_of_fmap. eexists. split; [reflexivity|].
    by eapply list_elem_of_lookup_2.
  - unfold join_returns, worked_off. apply bool_decide_eq_false.
    pose proof (unfinished_stays_positive
                  (Queue (routed_to (Z.of_nat i) (init oq workers watching) cs)
                         (length (routed_to (Z.of_nat i)
                                    (init oq workers watching) cs)))
                  None (snd c) e fuel Hin Hraise ltac:(simpl; lia)).
    lia.
Qed.

End ShutdownBarrier.

(** * Further properties of the bridge *)

Section BridgePaths.

Context {Args Val Exc : Type}.
Variable is_Exception : Exc -> bool.
Variable stops_loop : Exc -> bool.
Implicit Types (w : world Args Val Exc) (self : AsyncToSync Args Val Exc)
  (co : coroutine Args Val Exc) (fs : list (cell Val Exc))
  (lp : loop Args Val Exc) (ls : list (loop Args Val Exc)).

(** X13.  The call that finds no home loop running (and is not itself in
    a running loop) runs the awaitable in a loop of its own, and the
    caller gets what the awaitable gave: its value, or its exception,
    whatever its class.  The loop is left closed, not running, with
    nothing scheduled, after all the loops there were; the current loop of
    the thread is then [main_event_loop] of the adapter, whatever it was
    before; and the call has made one cell, which holds the value or the
    [Exception], or nothing for an exception of another class. *)
Theorem private_loop_call self args w :
  in_running_loop w = false ->
  (forall l, main_event_loop self = Some l -> loop_running w l = false) ->
  snd (AsyncToSync_call is_Exception stops_loop self args w)
  = end_of_awaited (awaitable self args) /\
  loops (fst (AsyncToSync_call is_Exception stops_loop self args w))
  = loops w ++ [Loop false true (uvloop self) []] /\
  current_loop (fst (AsyncToSync_call is_Exception stops_loop self args w))
  = main_event_loop self /\
  futures (fst (AsyncToSync_call is_Exception stops_loop self args w))
  = futures w ++ [default Pending (settled is_Exception (awaitable self args))].
Proof.
  intros Hnot Hhome. unfold AsyncToSync_call. rewrite Hnot.
  assert (Hruns : match main_event_loop self with
                  | Some l => loop_running
                      (World (loops w) (current_loop w) (futures w ++ [Pending])) l
                  | None => false
                  end = false).
  { destruct (main_event_loop self) as [l|]; [|done]. by apply Hhome. }
  rewrite Hruns. cbn [negb].
  assert (Hmiddle : (futures w ++ [Pending]) !! length (futures w)
                    = Some (@Pending Val Exc))
    by (by apply list_lookup_middle).
  assert (Hinsert : forall x : cell Val Exc,
            <[length (futures w) := x]> (futures w ++ [Pending]) = futures w ++ [x]).
  { intros x. rewrite insert_app_r_alt by lia. by rewrite Nat.sub_diag. }
  unfold main_wrap, set_cell, future_result, end_of_awaited, settled. simpl.
  destruct (awaitable self args) as [v|e]; simpl.
  - rewrite Hmiddle, Hinsert. simpl. by rewrite list_lookup_middle.
  - destruct (is_Exception e); simpl; [|done].
    rewrite Hmiddle, Hinsert. simpl. by rewrite list_lookup_middle.
Qed.

(** The world in which [call_result.result()] returns or waits: the one
    it was called in, or that world once the running loops have started
    what was handed to them. *)
Lemma future_result_world (c : nat) w :
  fst (future_result is_Exception stops_loop c w) = w \/
  fst (future_result is_Exception stops_loop c w)
  = run_scheduled is_Exception stops_loop w.
Proof. unfold future_result. repeat case_match; simpl; auto. Qed.

Lemma future_result_keeps_set_cell (c' c : nat) w x :
  futures w !! c = Some x -> x <> Pending ->
  futures (fst (future_result is_Exception stops_loop c' w)) !! c = Some x.
Proof.
  intros Hc Hx. destruct (future_result_world c' w) as [-> | ->]; [done|].
  destruct (run_scheduled_parts is_Exception stops_loop w) as (_ & -> & _).
  by apply run_loops_keeps_set_cell.
Qed.

(** X14.  A cell is written once: a cell that holds a result or an
    exception before a call of the adapter holds the same after it,
    whatever the world, the adapter and the way the call ends. *)
Theorem set_cells_are_kept self args w (c : nat) x :
  futures w !! c = Some x -> x <> Pending ->
  futures (fst (AsyncToSync_call is_Exception stops_loop self args w)) !! c = Some x.
Proof.
  intros Hc Hx. unfold AsyncToSync_call.
  assert (Hc1 : (futures w ++ [Pending]) !! c = Some x)
    by (by apply lookup_app_l_Some).
  destruct (in_running_loop w); [done|].
  destruct (negb _).
  - pose proof (main_wrap_keeps_set_cell is_Exception
                  (Coroutine (awaitable self) args (length (futures w)))
                  (futures w ++ [Pending]) c x Hc1 Hx) as Hkeep.
    simpl. destruct (main_wrap _ _ _) as [fs [e|]]; simpl in *; [done|].
    by apply future_result_keeps_set_cell.
  - destruct (main_event_loop self); by apply future_result_keeps_set_cell.
Qed.

(** What the run of a loop leaves of it: it stays open or closed, and it
    runs afterwards only if it ran before; it still runs when no coroutine
    that waits on it stops it. *)
Lemma run_loop_flags lp fs :
  is_closed (fst (run_loop is_Exception stops_loop lp fs)) = is_closed lp /\
  (is_running (fst (run_loop is_Exception stops_loop lp fs)) = true ->
   is_running lp = true) /\
  (keeps_running is_Exception stops_loop lp ->
   is_running (fst (run_loop is_Exception stops_loop lp fs)) = is_running lp).
Proof.
  unfold run_loop. destruct (is_running lp) eqn:Hrun;
    [|simpl; repeat split; congruence].
  pose proof (start_all_runs is_Exception stops_loop (scheduled lp) fs) as Hruns.
  destruct (start_all is_Exception stops_loop (scheduled lp) fs) as [[fs' b] rest].
  simpl in *. split; [done|]. split; [done|]. intros Hquiet. by apply Hruns.
Qed.

Lemma run_loops_closed ls fs :
  is_closed <$> fst (run_loops is_Exception stops_loop ls fs) = is_closed <$> ls.
Proof.
  revert fs. induction ls as [|lp ls IH]; intros fs; [done|].
  rewrite run_loops_cons. simpl. rewrite IH.
  by destruct (run_loop_flags lp fs) as (-> & _).
Qed.

Lemma run_loops_not_started ls fs (i : nat) lp' :
  fst (run_loops is_Exception stops_loop ls fs) !! i = Some lp' ->
  is_running lp' = true ->
  exists lp, ls !! i = Some lp /\ is_running lp = true.
Proof.
  revert fs i. induction ls as [|lp ls IH]; intros fs i; [done|].
  rewrite run_loops_cons. simpl. destruct i as [|i]; simpl.
  - intros [= <-] Hrun. exists lp. split; [done|].
    by apply (run_loop_flags lp fs).
  - apply IH.
Qed.

Lemma run_loops_still_running ls fs :
  Forall (keeps_running is_Exception stops_loop) ls ->
  is_running <$> fst (run_loops is_Exception stops_loop ls fs) = is_running <$> ls.
Proof.
  intros Hls. revert fs. induction Hls as [|lp ls Hlp _ IH]; intros fs; [done|].
  rewrite run_loops_cons. simpl. rewrite IH.
  destruct (run_loop_flags lp fs) as (_ & _ & Hrun). by rewrite Hrun.
Qed.

(** The loop of a list that runs and that no coroutine stops still runs
    afterwards, whatever the other loops do. *)
Lemma run_loops_running_at ls fs (i : nat) lp :
  ls !! i = Some lp -> is_running lp = true ->
  keeps_running is_Exception stops_loop lp ->
  is_running <$> fst (run_loops is_Exception stops_loop ls fs) !! i = Some true.
Proof.
  revert fs i. induction ls as [|lp0 ls IH]; intros fs i; [done|].
  rewrite run_loops_cons. simpl. destruct i as [|i]; simpl.
  - intros [= ->] Hrun Hquiet.
    destruct (run_loop_flags lp fs) as (_ & _ & Hstill).
    rewrite Hstill by done. by rewrite Hrun.
  - apply IH.
Qed.

Lemma call_soon_threadsafe_loops (l : nat) co w :
  is_running <$> loops (call_soon_threadsafe l co w) = is_running <$> loops w /\
  is_closed <$> loops (call_soon_threadsafe l co w) = is_closed <$> loops w /\
  current_loop (call_soon_threadsafe l co w) = current_loop w.
Proof.
  unfold call_soon_threadsafe. simpl.
  repeat split; apply list_eq; intros i; rewrite !list_lookup_fmap;
    (destruct (decide (l = i)) as [->|Hne];
     [rewrite list_lookup_alter_eq; by destruct (loops w !! i)
     | by rewrite list_lookup_alter_ne]).
Qed.

(** When no coroutine stops a loop before the call, and the coroutine of
    the call does not either, none does after [call_soon_threadsafe]. *)
Lemma call_soon_threadsafe_keeps_running (l : nat) co w :
  Forall (keeps_running is_Exception stops_loop) (loops w) ->
  stops is_Exception stops_loop co = false ->
  Forall (keeps_running is_Exception stops_loop) (loops (call_soon_threadsafe l co w)).
Proof.
  intros Hw Hco. unfold call_soon_threadsafe. simpl.
  apply Forall_lookup. intros i lp' Hi.
  destruct (decide (l = i)) as [->|Hne].
  - rewrite list_lookup_alter_eq in Hi.
    destruct (loops w !! i) as [lp|] eqn:Hlp; [|done].
    simpl in Hi. injection Hi as <-. unfold keeps_running. simpl.
    apply Forall_app. split.
    + by apply (Forall_lookup_1 _ _ _ _ Hw Hlp).
    + by constructor.
  - rewrite list_lookup_alter_ne in Hi by done.
    by apply (Forall_lookup_1 _ _ _ _ Hw Hi).
Qed.

Lemma loop_running_fmap w w' :
  is_running <$> loops w' = is_running <$> loops w ->
  forall i, loop_running w' i = loop_running w i.
Proof.
  intros Heq i. unfold loop_running.
  assert (Hi : (is_running <$> loops w') !! i = (is_running <$> loops w) !! i)
    by (by rewrite Heq).
  rewrite !list_lookup_fmap in Hi.
  destruct (loops w' !! i), (loops w !! i); by simplify_eq/=.
Qed.

(** X15.  The call that finds its home loop running makes no loop and
    starts none: it hands its coroutine to the home loop; after the call
    the same loops exist, closed or not as before, a loop runs only if it
    ran before, and the current loop of the calling thread is what it was.
    The loops that ran all run still when no coroutine that waited on
    them, nor the coroutine of the call, raises an exception that stops
    its loop. *)
Theorem home_loop_call_makes_no_loop self args w (l : nat) :
  in_running_loop w = false ->
  main_event_loop self = Some l -> loop_running w l = true ->
  is_closed <$> loops (fst (AsyncToSync_call is_Exception stops_loop self args w))
  = is_closed <$> loops w /\
  current_loop (fst (AsyncToSync_call is_Exception stops_loop self args w))
  = current_loop w /\
  (forall i,
     loop_running (fst (AsyncToSync_call is_Exception stops_loop self args w)) i = true ->
     loop_running w i = true) /\
  (Forall (keeps_running is_Exception stops_loop) (loops w) ->
   stops is_Exception stops_loop (Coroutine (awaitable self) args (length (futures w)))
   = false ->
   is_running <$> loops (fst (AsyncToSync_call is_Exception stops_loop self args w))
   = is_running <$> loops w).
Proof.
  intros Hnot Hmain Hrun. unfold AsyncToSync_call. rewrite Hnot, Hmain.
  change (loop_running (World (loops w) (current_loop w) (futures w ++ [Pending])) l)
    with (loop_running w l).
  rewrite Hrun. cbn [negb].
  set (co := Coroutine (awaitable self) args (length (futures w))).
  set (w1 := World (loops w) (current_loop w) (futures w ++ [Pending])).
  set (w2 := call_soon_threadsafe l co w1).
  destruct (call_soon_threadsafe_loops l co w1) as (Hr2 & Hc2 & Hcur2).
  fold w2 in Hr2, Hc2, Hcur2. simpl in Hr2, Hc2, Hcur2.
  destruct (run_scheduled_parts is_Exception stops_loop w2) as (Hls & _ & Hcur).
  destruct (future_result_world (length (futures w)) w2) as [-> | ->].
  - repeat split; try done.
    intros i. by rewrite (loop_running_fmap w w2 Hr2 i).
  - rewrite Hls, Hcur, run_loops_closed. repeat split; try done.
    + intros i Hi. rewrite <- (loop_running_fmap w w2 Hr2 i).
      unfold loop_running in *. rewrite Hls in Hi.
      destruct (fst (run_loops is_Exception stops_loop (loops w2) (futures w2)) !! i)
        as [lp'|] eqn:Hlp'; [|done].
      destruct (run_loops_not_started _ _ _ _ Hlp' Hi) as (lp & -> & Hlp). done.
    + intros Hquiet Hco. rewrite <- Hr2. apply run_loops_still_running.
      by apply call_soon_threadsafe_keeps_running.
Qed.




End BridgePaths.

Section NestedBridge.

Context {Args Val Exc : Type}.
Variable is_Exception : Exc -> bool.
Variable stops_loop : Exc -> bool.
Implicit Types (w : world Args Val Exc) (op : Args -> awaited Val Exc).

(** X16.  The two adapters nested.  A coroutine of the running loop [l]
    awaits [SyncToAsync] of a function that builds [AsyncToSync(op)] and
    calls it, and the thread of the executor has no current loop of its
    own.  Then [thread_handler] leaves [l] in the slot of that thread, the
    [AsyncToSync] built there takes [l] from the slot as its home loop, and
    the call hands [op] to [l].  When no coroutine that waits on [l] stops
    it, the coroutine gets the value of [op], or its [Exception]; the cell
    of the call holds it; no loop is made, [l] still runs, and the current
    loop of the coroutine is still [l]. *)
Theorem sync_function_calls_back_on_home_loop op args w (l : nat) lp x :
  world_ok w -> current_loop w = Some l ->
  loops w !! l = Some lp -> is_running lp = true ->
  keeps_running is_Exception stops_loop lp ->
  settled is_Exception (op args) = Some x ->
  exists w',
    SyncToAsync_call (calls_back is_Exception stops_loop op) args None w
    = Some (Some l, (w', end_of_cell x)) /\
    futures w' !! length (futures w) = Some x /\
    loop_running w' l = true /\
    is_closed <$> loops w' = is_closed <$> loops w /\
    current_loop w' = Some l.
Proof.
  intros Hok Hcur Hl Hrun Hquiet Hx.
  unfold SyncToAsync_call, thread_handler, calls_back, AsyncToSync_init.
  rewrite Hcur. simpl.
  set (w0 := World (loops w) None (futures w)).
  set (self := MkAsyncToSync op false (Some l)).
  assert (Hok0 : world_ok w0) by exact Hok.
  assert (Hquiet0 : forall l' lp', main_event_loop self = Some l' ->
            loops w0 !! l' = Some lp' -> keeps_running is_Exception stops_loop lp').
  { intros l' lp' [= <-] Hl'. simpl in Hl'. by simplify_eq. }
  destruct (call_settles is_Exception stops_loop self args w0 x eq_refl Hok0 Hquiet0 Hx)
    as [Hcell Hend].
  assert (Hloops :
    loop_running (fst (AsyncToSync_call is_Exception stops_loop self args w0)) l = true /\
    is_closed <$> loops (fst (AsyncToSync_call is_Exception stops_loop self args w0))
    = is_closed <$> loops w).
  { unfold AsyncToSync_call. simpl.
    change (loop_running (World (loops w) None (futures w ++ [Pending])) l)
      with (loop_running w l).
    assert (Hruns : loop_running w l = true) by (unfold loop_running; by rewrite Hl).
    rewrite Hruns. cbn [negb].
    set (co := Coroutine op args (length (futures w))).
    set (w1 := World (loops w) None (futures w ++ [Pending])).
    set (w2 := call_soon_threadsafe l co w1).
    destruct (call_soon_threadsafe_loops l co w1) as (Hr2 & Hc2 & _).
    fold w2 in Hr2, Hc2. simpl in Hr2, Hc2.
    assert (Hl2 : exists lp2, loops w2 !! l = Some lp2 /\ is_running lp2 = true /\
                              keeps_running is_Exception stops_loop lp2).
    { exists (Loop (is_running lp) (is_closed lp) (from_uvloop lp) (scheduled lp ++ [co])).
      unfold w2, call_soon_threadsafe. simpl. rewrite list_lookup_alter_eq, Hl.
      repeat split; [done|]. unfold keeps_running. simpl. apply Forall_app.
      split; [done|]. constructor; [|done].
      by apply (settled_goes_on is_Exception stops_loop co x). }
    destruct Hl2 as (lp2 & Hlp2 & Hrun2 & Hquiet2).
    destruct (future_result_world is_Exception stops_loop (length (futures w)) w2)
      as [-> | ->].
    - split; [|done]. unfold loop_running. by rewrite Hlp2.
    - destruct (run_scheduled_parts is_Exception stops_loop w2) as (Hls & _ & _).
      unfold loop_running. rewrite Hls, run_loops_closed. split; [|done].
      pose proof (run_loops_running_at is_Exception stops_loop (loops w2) (futures w2)
                    l lp2 Hlp2 Hrun2 Hquiet2) as Hat.
      destruct (fst (run_loops is_Exception stops_loop (loops w2) (futures w2)) !! l);
        by simplify_eq/=. }
  destruct (AsyncToSync_call is_Exception stops_loop self args w0) as [w1 r1].
  simpl in *. subst r1.
  eexists. split; [reflexivity|]. simpl. by destruct Hloops.
Qed.

End NestedBridge.

(** * Properties of [Interservices.py] *)

Section Documents.

Context {Float : Type}.

Implicit Types (v x : pyval Float) (d : list (string * pyval Float)).
Implicit Types (l : list (pyval Float)) (k : string).

Lemma dict_get_set_eq d k v : dict_get (dict_set d k v) k = Some v.
Proof.
  induction d as [|[k' v'] d IH]; simpl.
  - by rewrite decide_True.
  - destruct (decide (k' = k)) as [->|Hne]; simpl.
    + by rewrite decide_True.
    + by rewrite decide_False.
Qed.

Lemma dict_get_set_ne d k k' v :
  k <> k' -> dict_get (dict_set d k v) k' = dict_get d k'.
Proof.
  intros Hne. induction d as [|[k0 v0] d IH]; simpl.
  - by rewrite decide_False.
  - destruct (decide (k0 = k)) as [->|Hne0]; simpl.
    + by rewrite !decide_False.
    + by rewrite IH.
Qed.

Lemma dict_set_fresh d k v : k ∉ d.*1 -> dict_set d k v = d ++ [(k, v)].
Proof.
  induction d as [|[k' v'] d IH]; simpl; [done|].
  intros Hk. apply not_elem_of_cons in Hk as [Hne Hk].
  rewrite decide_False by done. by rewrite IH.
Qed.

Lemma dict_get_app_fresh d d' k :
  k ∉ d.*1 -> dict_get (d ++ d') k = dict_get d' k.
Proof.
  induction d as [|[k' v'] d IH]; simpl; [done|].
  intros Hk. apply not_elem_of_cons in Hk as [Hne Hk].
  rewrite decide_False by done. by apply IH.
Qed.

(** A list goes over the wire item by item. *)
Lemma wire_list l : wire (PList l) = PList <$> wire_all l.
Proof.
  induction l as [|x l IH]; [done|].
  simpl in *. destruct (wire x); [|done].
  destruct (wire_all l); simplify_option_eq; done.
Qed.


(** A dictionary goes over the wire value by value, under the same keys. *)
Lemma wire_dict_nil : wire (PDict ([] : list (string * pyval Float))) = Some (PDict []).
Proof. done. Qed.

Lemma wire_dict_cons k x d :
  wire (PDict ((k, x) :: d))
  = match wire x, wire (PDict d) with
    | Some x', Some (PDict d') => Some (PDict ((k, x') :: d'))
    | _, _ => None
    end.
Proof.
  simpl. destruct (wire x); [|done].
  match goal with |- _ = match PDict <$> ?e with _ => _ end => destruct e end; done.
Qed.

Lemma wire_dict d b :
  wire (PDict d) = Some b -> exists d', b = PDict d' /\ d'.*1 = d.*1.
Proof.
  revert b. induction d as [|[k x] d IH]; intros b.
  - intros [= <-]. by exists [].
  - rewrite wire_dict_cons. destruct (wire x) as [x'|]; [|done].
    destruct (wire (PDict d)) as [b'|]; [|done].
    destruct (IH b' eq_refl) as (d' & -> & Hkeys).
    intros [= <-]. exists ((k, x') :: d'). split; [done|]. simpl. by f_equal.
Qed.

End Documents.

Section TokenCheck.

Context {Float : Type}.

Implicit Types (f : handler Float) (token : tokens).
Implicit Types (d kwargs : list (string * pyval Float)) (args : list (pyval Float)).

(** Once the token check is passed, the wrapper raises or replies. *)
Lemma reply_after_check f content args kwargs :
  match py_getitem content (PStr "args") ≫= py_iter with
  | None => Fails
  | Some more =>
      match py_getitem content (PStr "kwargs") with
      | None => Fails
      | Some kw =>
          match py_iter kw ≫= (fun keys => add_kwargs kw keys kwargs) with
          | None => Fails
          | Some kwargs' =>
              match f (args ++ more) kwargs' with
              | None => Fails
              | Some result => Replies (microResponse [result])
              end
          end
      end
  end <> TokenIsWrong.
Proof. repeat case_match; done. Qed.

(** X17.  The wrapper answers that the token is wrong exactly when the
    JSON of the request is an object with a key ['token'] whose value is
    not null, and the token kept for the path of the request is [None].
    So a path whose token is a string refuses no request, whatever token
    the request carries. *)
Theorem token_is_wrong_iff token f path content args kwargs :
  reply token f path content args kwargs = TokenIsWrong <->
  exists d sent,
    content = Some (PDict d) /\ dict_get d "token" = Some sent /\
    sent <> PNone /\ token !! path = Some None.
Proof.
  split.
  - unfold reply. intros Hreply.
    destruct content as [content|]; [|done].
    destruct content as [ |b|z|x|s|l|l|d|attrs]; try done.
    + simpl in Hreply. case_bool_decide; [|done].
      destruct (token !! path); done.
    + simpl in Hreply. destruct (existsb _ l).
      * destruct (token !! path); done.
      * done.
    + simpl in Hreply. destruct (existsb _ l).
      * destruct (token !! path); done.
      * done.
    + simpl py_contains in Hreply. case_bool_decide as Hin.
      * destruct Hin as [sent Hsent].
        destruct (token !! path) as [stored|] eqn:Hstored; [|done].
        simpl py_getitem in Hreply. rewrite Hsent in Hreply.
        destruct stored as [s|].
        { simpl in Hreply. rewrite andb_false_r in Hreply. exfalso; exact (reply_after_check f (PDict d) args kwargs Hreply). }
        exists d, sent. repeat split; try done.
        intros ->. simpl in Hreply. exfalso; exact (reply_after_check f (PDict d) args kwargs Hreply).
      * exfalso; exact (reply_after_check f (PDict d) args kwargs Hreply).
  - intros (d & sent & -> & Hsent & Hne & Hstored).
    unfold reply. simpl py_contains. rewrite bool_decide_eq_true_2 by by exists sent.
    rewrite Hstored. simpl py_getitem. rewrite Hsent.
    by destruct sent.
Qed.


(** X18.  For a rule registered with [typing], which keeps [str(token)],
    the token that a request carries makes no difference: two requests
    that differ only in the value under ['token'] end the same way, with
    the same answer of the same call of the handler. *)
Theorem sent_token_makes_no_difference (py_str : pyval Float -> string)
    token rule given f d sent sent' args kwargs :
  reply (typing py_str token rule given) f rule
    (Some (PDict (dict_set d "token" sent))) args kwargs
  = reply (typing py_str token rule given) f rule
      (Some (PDict (dict_set d "token" sent'))) args kwargs.
Proof.
  unfold reply, typing. cbv beta iota. simpl py_contains.
  rewrite !bool_decide_eq_true_2 by (rewrite dict_get_set_eq; by eexists).
  unfold tokens in *. rewrite lookup_insert_eq. simpl py_getitem. rewrite !dict_get_set_eq.
  simpl. rewrite !andb_false_r.
  by rewrite !(dict_get_set_ne d "token") by done.
Qed.

(** X19.  A request that carries a key ['token'], on a path for which no
    token is kept, makes the wrapper raise: the handler is not called and
    nothing is answered. *)
Theorem unknown_path_fails token f path d sent args kwargs :
  token !! path = None ->
  dict_get d "token" = Some sent ->
  reply token f path (Some (PDict d)) args kwargs = Fails.
Proof.
  intros Hpath Hsent. unfold reply. simpl py_contains.
  rewrite bool_decide_eq_true_2 by by exists sent.
  by rewrite Hpath.
Qed.

End TokenCheck.

Section Friends.

Context {Float : Type}.

Implicit Types (self : Friend Float) (h : dicts).
Implicit Types (d kwargs : list (string * pyval Float)) (args : list (pyval Float)).

Lemma dict_at_insert h a m : dict_at (<[a := m]> h) a = m.
Proof. unfold dict_at, dicts in *. by rewrite lookup_insert_eq. Qed.

Lemma dict_at_insert_ne h a a' m : a <> a' -> dict_at (<[a := m]> h) a' = dict_at h a'.
Proof. intros Hne. unfold dict_at, dicts in *. by rewrite lookup_insert_ne. Qed.

(** X20.  Two [Friend] objects made without [token] and [ruleMethods]
    hold the same two dictionaries: after [setRule] on the first, the
    second sends, for that rule, the token given to the first, with the
    method chosen for the first. *)
Theorem default_dicts_are_shared (name1 address1 name2 address2 : string) h rule
    (method given : option string) args kwargs :
  exists m,
    request (Friend_init (Float:=Float) name1 address1 None None)
      (setRule (Friend_init (Float:=Float) name1 address1 None None) rule method given h)
      rule args kwargs
    = (m, address1 +:+ rule,
       PDict [("args", PList args); ("kwargs", PDict kwargs);
              ("token", match given with Some s => PStr s | None => PNone end)]) /\
    request (Friend_init (Float:=Float) name2 address2 None None)
      (setRule (Friend_init (Float:=Float) name1 address1 None None) rule method given h)
      rule args kwargs
    = (m, address2 +:+ rule,
       PDict [("args", PList args); ("kwargs", PDict kwargs);
              ("token", match given with Some s => PStr s | None => PNone end)]).
Proof.
  exists (fst (fst (request (Friend_init (Float:=Float) name1 address1 None None)
                      (setRule (Friend_init (Float:=Float) name1 address1 None None)
                         rule method given h)
                      rule args kwargs))).
  unfold request, setRule. simpl.
  rewrite dict_at_insert. by rewrite lookup_insert_eq.
Qed.

(** X21.  A [Friend] whose two dictionaries are not those of another is
    not touched by [setRule] on the other: its requests are what they
    were, for every rule. *)
Theorem own_dicts_are_private self (other : Friend Float) h rule rule'
    (method given : option string) args kwargs :
  token self <> token other -> token self <> ruleMethods other ->
  ruleMethods self <> token other -> ruleMethods self <> ruleMethods other ->
  request self (setRule other rule method given h) rule' args kwargs
  = request self h rule' args kwargs.
Proof.
  intros Htt Htr Hrt Hrr. unfold request, setRule.
  by rewrite !dict_at_insert_ne by done.
Qed.


Lemma oneResponse_payload (x : pyval Float) : oneResponse x = PDict [("obj", payload x)].
Proof. by destruct x. Qed.

Lemma microResponse_results (v : pyval Float) :
  microResponse [v] = PDict [("res", PList (oneResponse <$> results v))].
Proof. unfold microResponse. simpl. rewrite app_nil_r. by destruct v. Qed.

Lemma wire_entry k (x : pyval Float) :
  wire (PDict [(k, x)]) = (fun x' : pyval Float => PDict [(k, x')]) <$> wire x.
Proof. rewrite wire_dict_cons, wire_dict_nil. by destruct (wire x). Qed.

Lemma wire_all_oneResponse (xs : list (pyval Float)) :
  wire_all (oneResponse <$> xs)
  = fmap (M := list) (fun x' : pyval Float => PDict [("obj", x')])
      <$> wire_all (payload <$> xs).
Proof.
  induction xs as [|x xs IH]; [done|].
  rewrite !fmap_cons. cbn [wire_all]. rewrite IH, oneResponse_payload, wire_entry.
  destruct (wire (payload x)); [|done].
  by destruct (wire_all (payload <$> xs)).
Qed.

Lemma entries_obj (items : list (pyval Float)) :
  mapM (fun arg => py_getitem arg (PStr "obj"))
       ((fun x' : pyval Float => PDict [("obj", x')]) <$> items)
  = Some items.
Proof.
  apply mapM_Some. induction items as [|x items IH]; constructor; done.
Qed.

(** What [receive] makes of the document that [microResponse] gives for
    the one result [v]. *)
Lemma receive_microResponse last (r : response Float) (v answer : pyval Float) :
  status_code r = 200 ->
  content_type r = Some "application/json" ->
  wire (microResponse [v]) = Some answer ->
  json r = Some answer ->
  exists items,
    wire_all (payload <$> results v) = Some items /\
    receive last r
    = (answer, Some match items with
                    | [] => PStr (text r)
                    | [x] => x
                    | _ => PList items
                    end).
Proof.
  intros Hstatus Htype Hwire Hjson.
  rewrite microResponse_results, wire_entry, wire_list, wire_all_oneResponse in Hwire.
  destruct (wire_all (payload <$> results v)) as [items|]; [|done].
  injection Hwire as <-. exists items. split; [done|].
  unfold receive. rewrite Hstatus, Htype, Hjson.
  rewrite !decide_True by done. unfold unpack. simpl py_contains.
  simpl py_getitem. cbv beta iota. rewrite entries_obj.
  destruct items as [|x [|y items]]; simpl; by rewrite ?decide_True by lia.
Qed.

(** X22.  What the caller gets of what the handler returned.  When the
    request can be written as JSON and the response has status 200, the
    type [application/json] and, as its body, the JSON of
    [microResponse(v)] for the handler's result [v], then [send] keeps the
    response and its document, and returns: the one value, when [v] is no
    tuple or a tuple of one item; the list of the items, when [v] is a
    tuple of two or more; the text of the response, when [v] is the empty
    tuple.  Each value comes as JSON gives it back: a tuple as a list, an
    object as the dictionary of its public attributes that are no
    methods. *)
Theorem send_returns_handler_results
    (network : http_method -> string -> pyval Float -> option (response Float))
    self h rule args kwargs body (r : response Float) (v answer : pyval Float) :
  wire (snd (request self h rule args kwargs)) = Some body ->
  network (fst (fst (request self h rule args kwargs)))
          (snd (fst (request self h rule args kwargs))) body = Some r ->
  status_code r = 200 ->
  content_type r = Some "application/json" ->
  wire (microResponse [v]) = Some answer ->
  json r = Some answer ->
  exists items,
    wire_all (payload <$> results v) = Some items /\
    send network self h rule args kwargs
    = (MkFriend (name self) (address self) (token self) answer (Some r)
                (ruleMethods self),
       Some match items with
            | [] => PStr (text r)
            | [x] => x
            | _ => PList items
            end).
Proof.
  intros Hbody Hnet Hstatus Htype Hwire Hjson.
  destruct (receive_microResponse (lastMessage self) r v answer Hstatus Htype Hwire Hjson)
    as (items & Hitems & Hreceive).
  exists items. split; [done|].
  unfold send. destruct (request self h rule args kwargs) as [[m url] jsonsend].
  simpl in Hbody, Hnet. rewrite Hbody, Hnet, Hreceive. done.
Qed.

End Friends.

Section ClientToServer.

Context {Float : Type}.

Implicit Types (self : Friend Float) (h : dicts) (f : handler Float).
Implicit Types (d kwargs : list (string * pyval Float)) (args : list (pyval Float)).

(** The loop over the keys of a dictionary with distinct keys copies it. *)
Lemma add_kwargs_copies (pre suf : list (string * pyval Float)) :
  NoDup (pre ++ suf).*1 ->
  add_kwargs (PDict (pre ++ suf)) ((fun kv => PStr (fst kv)) <$> suf) pre
  = Some (pre ++ suf).
Proof.
  revert pre. induction suf as [|[k v] suf IH]; intros pre Hkeys.
  - by rewrite app_nil_r.
  - assert (Hfresh : k ∉ pre.*1).
    { rewrite fmap_app in Hkeys. apply NoDup_app in Hkeys as (_ & Hdisjoint & _).
      intros Hk. apply (Hdisjoint k Hk). simpl. apply elem_of_cons. by left. }
    rewrite fmap_cons. cbn [add_kwargs py_getitem fst].
    rewrite dict_get_app_fresh by done. cbn [dict_get].
    rewrite decide_True by done. rewrite dict_set_fresh by done.
    rewrite (cons_middle (k, v) pre suf), (assoc_L (++)) in Hkeys |- *.
    by apply IH.
Qed.

(** X23.  What the handler gets of what the caller sent.  The document
    that [send] makes of its arguments, read by the wrapper of a rule
    registered with [typing] and called with no arguments of its own,
    makes the wrapper call the handler with exactly the positional and
    the named arguments of [send], as JSON gives them back, and answer
    [microResponse] of the handler's result; whatever token either side
    holds. *)
Theorem sent_arguments_reach_handler (py_str : pyval Float -> string)
    self h rule args kwargs (store : tokens) given f body :
  NoDup kwargs.*1 ->
  wire (snd (request self h rule args kwargs)) = Some body ->
  exists args' kwargs',
    wire_all args = Some args' /\
    wire (PDict kwargs) = Some (PDict kwargs') /\
    reply (typing py_str store rule given) f rule (Some body) [] []
    = match f args' kwargs' with
      | Some result => Replies (microResponse [result])
      | None => Fails
      end.
Proof.
  intros Hkeys Hbody. unfold request in Hbody. cbn [snd] in Hbody.
  rewrite !wire_dict_cons, wire_dict_nil, wire_list in Hbody.
  destruct (wire_all args) as [args'|]; [|done].
  destruct (wire (PDict kwargs)) as [kw|] eqn:Hkw; [|done].
  destruct (wire_dict _ _ Hkw) as (kwargs' & -> & Hsame).
  exists args', kwargs'. split; [done|]. split; [done|].
  assert (Hcopy : add_kwargs (PDict kwargs') ((fun kv => PStr (fst kv)) <$> kwargs') []
                  = Some kwargs').
  { apply (add_kwargs_copies [] kwargs'). simpl. by rewrite Hsame. }
  destruct (dict_at h (token self) !! rule) as [[s|]|];
    simpl in Hbody; injection Hbody as <-;
    unfold reply, typing, tokens in *; simpl; rewrite lookup_insert_eq;
    simpl; rewrite ?andb_false_r, Hcopy; done.
Qed.

End ClientToServer.

(** * The further properties at work *)

Lemma pool_ok_zero_capacity :
  pool_ok (init (Key:=nat) (Task:=nat) (Sink:=unit) None 2 0).
Proof. apply pool_ok_init; lia. Qed.

Lemma zero_capacity_is_round_robin_witness :
  submit_id (Some 5%nat) 10%nat (init (Sink:=unit) None 2 0)
  = submit 10%nat (init (Key:=nat) (Sink:=unit) None 2 0).
Proof.
  apply (zero_capacity_is_round_robin
           (init (Key:=nat) (Task:=nat) (Sink:=unit) None 2 0) 5%nat 10%nat
           pool_ok_zero_capacity).
  reflexivity.
Defined.

Lemma every_task_is_queued_once_witness :
  waiting (run_all (init (Key:=nat) (Task:=nat) (Sink:=unit) None 2 1)
             [(Some 5%nat, 10%nat); (None, 11%nat); (Some 5%nat, 12%nat)])
  ≡ₚ waiting (init (Key:=nat) (Task:=nat) (Sink:=unit) None 2 1)
     ++ (snd <$> [(Some 5%nat, 10%nat); (None, 11%nat); (Some 5%nat, 12%nat)]).
Proof.
  apply (every_task_is_queued_once
           (init (Key:=nat) (Task:=nat) (Sink:=unit) None 2 1)).
  unfold well_formed. simpl. lia.
Defined.

Lemma pool_without_workers_witness :
  submit_id (Some 5%nat) 10%nat (init (Sink:=unit) None 0 3)
  = (init (Sink:=unit) None 0 3, Raises ZeroDivisionError) /\
  submit_id (Some 5%nat) 10%nat (init (Sink:=unit) None (-2) 3)
  = (set_current_id ((0 + 1) mod (-2)) (init (Sink:=unit) None (-2) 3),
     Raises IndexError).
Proof.
  split.
  - apply (pool_without_workers
             (init (Key:=nat) (Task:=nat) (Sink:=unit) None 0 3)). reflexivity.
  - apply (pool_without_workers
             (init (Key:=nat) (Task:=nat) (Sink:=unit) None (-2) 3));
      [simpl; lia | reflexivity].
Defined.

Lemma negative_capacity_drops_unkeyed_tasks_witness :
  submit 11%nat (run_all (init (Key:=nat) (Sink:=unit) None 2 (-1))
                   [(Some 5%nat, 10%nat)])
  = (set_current_id
       ((current_id (run_all (init (Key:=nat) (Task:=nat) (Sink:=unit) None 2 (-1))
                       [(Some 5%nat, 10%nat)]) + 1) mod 2)
       (run_all (init (Key:=nat) (Sink:=unit) None 2 (-1)) [(Some 5%nat, 10%nat)]),
     Raises IndexError) /\
  (forall j k, ~ owns (run_all (init (Key:=nat) (Task:=nat) (Sink:=unit) None 2 (-1))
                         [(Some 5%nat, 10%nat)]) j k).
Proof.
  apply (negative_capacity_drops_unkeyed_tasks (Key:=nat) (Task:=nat) (Sink:=unit)
           None 2 (-1) [(Some 5%nat, 10%nat)] 11%nat); lia.
Defined.

(** A task of the examples: 0 raises, any other number returns the next. *)
Lemma worker_runs_queue_in_order_witness :
  run (fun t : nat => if decide (t = 0%nat) then inr tt else inl (t + 1)%nat)
      (length [3%nat; 8%nat] + S 2)
      (Worker (Queue [3%nat; 8%nat] 2) (Some new_queue))
  = (Worker (Queue [] 0) (forwarded [4%nat; 9%nat] (Some new_queue)), Waiting).
Proof.
  apply (worker_runs_queue_in_order
           (fun t : nat => if decide (t = 0%nat) then inr tt else inl (t + 1)%nat)
           (Worker (Queue [3%nat; 8%nat] 2) (Some new_queue))
           [3%nat; 8%nat] [4%nat; 9%nat] 0 2).
  - reflexivity.
  - repeat constructor.
  - reflexivity.
Defined.

Lemma raising_task_blocks_join_witness :
  join_returns
    (wqueue (fst (run (fun t : nat => if decide (t = 0%nat) then inr tt
                                      else inl (t + 1)%nat)
                      7 (Worker (Queue [3%nat; 0%nat; 8%nat] 3) (Some new_queue)))))
  = false.
Proof.
  apply (raising_task_blocks_join
           (fun t : nat => if decide (t = 0%nat) then inr tt else inl (t + 1)%nat)
           (Queue [3%nat; 0%nat; 8%nat] 3) (Some new_queue) 0%nat tt 7).
  - apply elem_of_cons. right. apply elem_of_cons. left. reflexivity.
  - reflexivity.
  - simpl. lia.
Defined.

Lemma shutdown_returns_after_work_witness :
  shutdown (after_work (fun t : nat => inl (t + 1)%nat : nat + unit) 3
              (run_all (init (Key:=nat) None 2 1)
                 [(Some 5%nat, 10%nat); (None, 11%nat)]))
  = None.
Proof.
  apply (shutdown_returns_after_work (Key:=nat)
           (fun t : nat => inl (t + 1)%nat : nat + unit)
           None 2 1 [(Some 5%nat, 10%nat); (None, 11%nat)] 3).
  - lia.
  - lia.
  - intros c _. eexists. reflexivity.
  - simpl. lia.
Defined.

Lemma shutdown_waits_after_raising_task_witness :
  is_Some (shutdown
             (after_work (fun t : nat => if decide (t = 0%nat) then inr tt
                                         else inl (t + 1)%nat) 9
                (run_all (init (Key:=nat) None 2 1)
                   [(Some 5%nat, 10%nat); (None, 0%nat)]))).
Proof.
  apply (shutdown_waits_after_raising_task (Key:=nat)
           (fun t : nat => if decide (t = 0%nat) then inr tt else inl (t + 1)%nat)
           None 2 1 [(Some 5%nat, 10%nat); (None, 0%nat)] (None, 0%nat) tt 9).
  - lia.
  - lia.
  - apply elem_of_cons. right. apply elem_of_cons. left. reflexivity.
  - reflexivity.
Defined.

Lemma private_loop_call_witness :
  snd (AsyncToSync_call id negb (MkAsyncToSync (fun _ => Throws false) false None) tt
         home_loop_world)
  = end_of_awaited (Throws false) /\
  loops (fst (AsyncToSync_call id negb (MkAsyncToSync (fun _ => Throws false) false None)
                tt home_loop_world))
  = loops home_loop_world ++ [Loop false true false []] /\
  current_loop (fst (AsyncToSync_call id negb
                       (MkAsyncToSync (fun _ => Throws false) false None)
                       tt home_loop_world))
  = None /\
  futures (fst (AsyncToSync_call id negb
                  (MkAsyncToSync (fun _ => Throws false) false None)
                  tt home_loop_world))
  = futures home_loop_world ++ [default Pending (settled id (Throws false))].
Proof.
  apply (private_loop_call id negb (MkAsyncToSync (fun _ => Throws false) false None) tt
           home_loop_world).
  - reflexivity.
  - intros l H. discriminate H.
Defined.

(** A world in which cell 0 already holds a result. *)
Lemma set_cells_are_kept_witness :
  futures (fst (AsyncToSync_call id negb (adapter (fun _ => Completes 7%nat)) tt
                  (World [Loop true false false []] None [HasResult 3%nat])))
    !! 0%nat
  = Some (HasResult 3%nat).
Proof.
  apply (set_cells_are_kept id negb (adapter (fun _ => Completes 7%nat)) tt
           (World [Loop true false false []] None [HasResult 3%nat]) 0
           (HasResult 3%nat)).
  - reflexivity.
  - intros H. discriminate H.
Defined.

(** A call whose operation raises [KeyboardInterrupt], handed to the home
    loop. *)
Lemma home_loop_call_makes_no_loop_witness :
  is_closed <$> loops (fst (AsyncToSync_call id negb (adapter (fun _ => Throws false))
                              tt busy_loop_world))
  = is_closed <$> loops busy_loop_world /\
  current_loop (fst (AsyncToSync_call id negb (adapter (fun _ => Throws false))
                       tt busy_loop_world))
  = current_loop busy_loop_world /\
  (forall i,
     loop_running (fst (AsyncToSync_call id negb (adapter (fun _ => Throws false))
                          tt busy_loop_world)) i = true ->
     loop_running busy_loop_world i = true) /\
  (Forall (keeps_running id negb) (loops busy_loop_world) ->
   stops id negb (Coroutine (awaitable (adapter (fun _ => Throws false))) tt
                    (length (futures busy_loop_world)))
   = false ->
   is_running <$> loops (fst (AsyncToSync_call id negb (adapter (fun _ => Throws false))
                                tt busy_loop_world))
   = is_running <$> loops busy_loop_world).
Proof.
  apply (home_loop_call_makes_no_loop id negb (adapter (fun _ => Throws false)) tt
           busy_loop_world 0); reflexivity.
Defined.

Lemma sync_function_calls_back_on_home_loop_witness :
  exists w',
    SyncToAsync_call (calls_back id negb (fun _ : unit => Completes 7%nat)) tt None
      working_loop_world
    = Some (Some 0%nat, (w', end_of_cell (HasResult 7%nat))) /\
    futures w' !! length (futures working_loop_world) = Some (HasResult 7%nat) /\
    loop_running w' 0 = true /\
    is_closed <$> loops w' = is_closed <$> loops working_loop_world /\
    current_loop w' = Some 0%nat.
Proof.
  apply (sync_function_calls_back_on_home_loop id negb (fun _ : unit => Completes 7%nat)
           tt working_loop_world 0
           (Loop true false false [Coroutine (fun _ => Throws true) tt 0])
           (HasResult 7%nat)).
  - intros lp co Hlp Hco. apply list_elem_of_singleton in Hlp as ->.
    apply list_elem_of_singleton in Hco as ->. simpl. lia.
  - reflexivity.
  - reflexivity.
  - reflexivity.
  - by repeat constructor.
  - reflexivity.
Defined.

(** ** [Interservices.py] at work *)

(** A server that has removed the token of the path. *)
Lemma unknown_path_fails_witness :
  reply (Float:=Z) (fst (remove {["/add" := Some "secret"]} "/add"))
    (fun _ _ => Some PNone) "/add"
    (Some (PDict [("args", PList []); ("kwargs", PDict []); ("token", PStr "secret")]))
    [] []
  = Fails.
Proof.
  apply (unknown_path_fails (fst (remove {["/add" := Some "secret"]} "/add"))
           (fun _ _ => Some PNone) "/add"
           [("args", PList []); ("kwargs", PDict []); ("token", PStr "secret")]
           (PStr "secret")); reflexivity.
Defined.

(** A friend with dictionaries of its own, beside one made with the
    defaults. *)
Lemma own_dicts_are_private_witness :
  request (Float:=Z) (Friend_init "a" "http://a" (Some 2%nat) (Some 3%nat))
    (setRule (Friend_init (Float:=Z) "b" "http://b" None None) "/add" (Some "GET")
       (Some "secret") ∅)
    "/add" [PInt 1] []
  = request (Friend_init "a" "http://a" (Some 2%nat) (Some 3%nat)) ∅ "/add" [PInt 1] [].
Proof.
  apply (own_dicts_are_private (Friend_init "a" "http://a" (Some 2%nat) (Some 3%nat))
           (Friend_init "b" "http://b" None None) ∅ "/add" "/add" (Some "GET")
           (Some "secret") [PInt 1] []); discriminate.
Defined.

(** A handler that has returned the pair of 1 and the pair of ['a'] and 2. *)
Lemma send_returns_handler_results_witness :
  exists items,
    wire_all (payload <$> results (PTuple [PInt 1; PTuple [PStr "a"; PInt 2]]))
    = Some items /\
    send (fun _ _ _ => Some pair_response) (Friend_init "a" "http://a" None None) ∅
      "/add" [PInt 1] []
    = (MkFriend "a" "http://a" default_token pair_document (Some pair_response)
         default_ruleMethods,
       Some match items with
            | [] => PStr (text pair_response)
            | [x] => x
            | _ => PList items
            end).
Proof.
  apply (send_returns_handler_results (fun _ _ _ => Some pair_response)
           (Friend_init "a" "http://a" None None) ∅ "/add" [PInt 1] []
           (PDict [("args", PList [PInt 1]); ("kwargs", PDict []); ("token", PNone)])
           pair_response (PTuple [PInt 1; PTuple [PStr "a"; PInt 2]]) pair_document);
    reflexivity.
Defined.

(** A call with one positional and one named argument. *)
Lemma sent_arguments_reach_handler_witness :
  exists args' kwargs',
    wire_all (Float:=Z) [PTuple [PInt 1; PInt 2]] = Some args' /\
    wire (Float:=Z) (PDict [("n", PInt 3)]) = Some (PDict kwargs') /\
    reply (typing (Float:=Z) (fun _ => "secret") ∅ "/add" (PStr "secret"))
      (fun args kwargs => Some (PTuple args)) "/add"
      (Some (PDict [("args", PList [PList [PInt 1; PInt 2]]);
                    ("kwargs", PDict [("n", PInt 3)]); ("token", PNone)]))
      [] []
    = match (fun args kwargs => Some (PTuple args)) args' kwargs' with
      | Some result => Replies (microResponse [result])
      | None => Fails
      end.
Proof.
  apply (sent_arguments_reach_handler (fun _ => "secret")
           (Friend_init "a" "http://a" None None) ∅ "/add"
           [PTuple [PInt 1; PInt 2]] [("n", PInt 3)] ∅ (PStr "secret")
           (fun args kwargs => Some (PTuple args))
           (PDict [("args", PList [PList [PInt 1; PInt 2]]);
                   ("kwargs", PDict [("n", PInt 3)]); ("token", PNone)])).
  - apply NoDup_singleton.
  - reflexivity.
Defined.

(** ** A home loop that stops *)

